(** * kashgari.processors.sequence_processor.SequenceProcessor

    A shallow embedding of [SequenceProcessor] (vocabulary construction,
    [transform], [inverse_transform]) and the properties of its
    specification.

    Modelling conventions:
    - Python [int] is [Z]; [len] is [Z.of_nat (length _)].
    - A Python [dict] is insertion ordered: it is an association list with
      pairwise different keys, new keys are appended, an assignment to an
      existing key keeps the key's position.  The order is observable here
      ([sorted] is stable, so equal counts keep the order of [items()]).
    - A raised exception is the [Raise] constructor of [result]; a method of
      the processor is a function of the instance ([self]) that returns the
      outcome and the instance after the call.
    - [logging] and [tqdm] output is not modelled; the flag that guards the
      one-time warning is. *)

From Stdlib Require Import ZArith List String Bool Lia Sorted Permutation.
Import ListNotations.
Open Scope string_scope.
Open Scope list_scope.
Open Scope Z_scope.

Set Implicit Arguments.

(** ** Python values used by the module *)

Definition len {A} (l : list A) : Z := Z.of_nat (List.length l).

Inductive exception :=
| KeyError_str (key : string)
| KeyError_int (key : Z)
| ValueError (msg : string)
| IndexError (msg : string)
| TypeError (msg : string).

Inductive result (A : Type) :=
| Ok (a : A)
| Raise (e : exception).
Arguments Ok {A} a.
Arguments Raise {A} e.

Definition rbind {A B} (r : result A) (f : A -> result B) : result B :=
  match r with
  | Ok a => f a
  | Raise e => Raise e
  end.

Declare Scope result_scope.
Delimit Scope result_scope with result.
Notation "x <- r ;; k" := (rbind r (fun x => k))
  (at level 61, r at next level, right associativity) : result_scope.

(** [[f(x) for x in l]] where [f] may raise: the first exception wins. *)
Fixpoint map_result {A B} (f : A -> result B) (l : list A) : result (list B) :=
  match l with
  | [] => Ok []
  | x :: l' =>
      (y <- f x ;; ys <- map_result f l' ;; Ok (y :: ys))%result
  end.

(** [enumerate(l)], counting from [start]. *)
Fixpoint enumerate_from {A} (start : Z) (l : list A) : list (Z * A) :=
  match l with
  | [] => []
  | x :: l' => (start, x) :: enumerate_from (start + 1) l'
  end.

Definition enumerate {A} (l : list A) : list (Z * A) := enumerate_from 0 l.

(** [max(l)] of a list of integers; [max([])] raises [ValueError]. *)
Definition py_max (l : list Z) : result Z :=
  match l with
  | [] => Raise (ValueError "max() arg is an empty sequence")
  | x :: l' => Ok (fold_left Z.max l' x)
  end.

(** [l[i]]; a negative index counts from the end. *)
Definition list_getitem {A} (l : list A) (i : Z) : result A :=
  if i <? 0 then
    match nth_error l (Z.to_nat (len l + i)) with
    | Some x => if 0 <=? len l + i then Ok x
                else Raise (IndexError "list index out of range")
    | None => Raise (IndexError "list index out of range")
    end
  else
    match nth_error l (Z.to_nat i) with
    | Some x => Ok x
    | None => Raise (IndexError "list index out of range")
    end.

(** Slice bounds as Python clamps them: a negative bound counts from the end. *)
Definition slice_bound (n i : Z) : Z :=
  if i <? 0 then Z.max 0 (i + n) else Z.min i n.

(** [l[start:stop]]. *)
Definition py_slice {A} (l : list A) (start stop : Z) : list A :=
  let a := slice_bound (len l) start in
  let b := slice_bound (len l) stop in
  firstn (Z.to_nat (b - a)) (skipn (Z.to_nat a) l).

(** ** Insertion-ordered dictionaries *)

Class EqKey (K : Type) := {
  key_eqb : K -> K -> bool;
  key_eqb_spec : forall a b, reflect (a = b) (key_eqb a b)
}.

#[export] Instance EqKey_string : EqKey string :=
  {| key_eqb := String.eqb; key_eqb_spec := String.eqb_spec |}.

#[export] Instance EqKey_Z : EqKey Z :=
  {| key_eqb := Z.eqb; key_eqb_spec := Z.eqb_spec |}.

Module Dict.
Section Dict.
Context {K V : Type} `{EqKey K}.

Definition t := list (K * V).

Definition empty : t := [].

  (** [not d] *)
Definition is_empty (d : t) : bool :=
    match d with [] => true | _ => false end.

  (** [d.get(k)] *)
Fixpoint get (d : t) (k : K) : option V :=
    match d with
    | [] => None
    | (k', v) :: d' => if key_eqb k k' then Some v else get d' k
    end.

  (** [d.get(k, default)] *)
Definition get_default (d : t) (k : K) (default : V) : V :=
    match get d k with Some v => v | None => default end.

  (** [k in d] *)
Definition contains (d : t) (k : K) : bool :=
    match get d k with Some _ => true | None => false end.

  (** [d[k] = v] *)
Fixpoint set (d : t) (k : K) (v : V) : t :=
    match d with
    | [] => [(k, v)]
    | (k', v') :: d' =>
        if key_eqb k k' then (k', v) :: d' else (k', v') :: set d' k v
    end.

Definition keys (d : t) : list K := map fst d.
Definition values (d : t) : list V := map snd d.
Definition items (d : t) : list (K * V) := d.

  (** [dict(pairs)], also a dict display [{k1: v1, ...}]: the pairs are
      assigned from left to right. *)
Definition of_pairs (pairs : list (K * V)) : t :=
    fold_left (fun d kv => set d (fst kv) (snd kv)) pairs empty.
End Dict.
Arguments t : clear implicits.
End Dict.

(** [d[k]] on a dict with string keys, resp. integer keys. *)
Definition getitem_str {V} (d : Dict.t string V) (k : string) : result V :=
  match Dict.get d k with Some v => Ok v | None => Raise (KeyError_str k) end.

Definition getitem_int {V} (d : Dict.t Z V) (k : Z) : result V :=
  match Dict.get d k with Some v => Ok v | None => Raise (KeyError_int k) end.

(** ** Library functions the module calls *)

(** [sorted(l, key=key, reverse=True)].  Python's sort is stable also with
    [reverse=True]: elements with equal keys keep their relative order.  A
    stable sort has one possible output, so it is modelled by the stable
    insertion sort; [sorted_reverse_perm], [sorted_reverse_sorted] and
    [sorted_reverse_stable] below state what it computes. *)
Fixpoint insert_reverse {A} (key : A -> Z) (x : A) (l : list A) : list A :=
  match l with
  | [] => [x]
  | y :: l' =>
      if key x <? key y then y :: insert_reverse key x l' else x :: y :: l'
  end.

Definition sorted_reverse {A} (key : A -> Z) (l : list A) : list A :=
  fold_right (insert_reverse key) [] l.

(** A two-dimensional numpy array of integers with its [shape].  The
    entries are kept as integers: the array of the code has element type
    [int32], so the model is that of the code for entries that [int32]
    holds ([int32] and [indices_fit] below). *)
Record ndarray := mk_ndarray {
  shape : Z * Z;
  rows : list (list Z)
}.

(** [np.zeros(shape, dtype=np.int32)] *)
Definition np_zeros (shp : Z * Z) : ndarray :=
  mk_ndarray shp (repeat (repeat 0 (Z.to_nat (snd shp))) (Z.to_nat (fst shp))).

(** One row of [pad_sequences(..., padding='post', truncating='post')]:
    [s[:maxlen]] written at the start of a row of [maxlen] zeros. *)
Definition pad_post (maxlen : Z) (s : list Z) : list Z :=
  let trunc := firstn (Z.to_nat maxlen) s in
  trunc ++ repeat 0 (Z.to_nat maxlen - List.length trunc)%nat.

(** [pad_sequences(sequences, maxlen, padding='post', truncating='post')]
    of [tensorflow.keras]: the result is [np.full((len(sequences), maxlen), 0)]
    with each sequence written into its row; a negative [maxlen] is refused
    by [np.full].  What keras does with an entry beyond [int32] is outside
    the model: a property about a vocabulary that need not come from
    [build_vocab_generator] states [indices_fit]; a vocabulary that does has
    indices below its size. *)
Definition pad_sequences (sequences : list (list Z)) (maxlen : Z)
  : result ndarray :=
  if maxlen <? 0 then Raise (ValueError "negative dimensions are not allowed")
  else Ok (mk_ndarray (len sequences, maxlen) (map (pad_post maxlen) sequences)).

(** ** The processor *)

(** The attributes of a [SequenceProcessor] instance.  The first six are
    those that this module reads and that [ABCProcessor.__init__] sets. *)
Record SequenceProcessor := mk_processor {
  token_pad : string;
  token_unk : string;
  token_bos : string;
  token_eos : string;
  vocab2idx : Dict.t string Z;
  idx2vocab : Dict.t Z string;
  build_in_vocab : string;
  min_count : Z;
  allow_unk : bool;
  build_vocab_from_labels : bool;
  _initial_vocab_dic : Dict.t string Z;
  _showed_seq_len_warning : bool
}.

(** A method: from the instance to an outcome and the instance afterwards
    (attribute assignments made before an exception persist). *)
Definition M (A : Type) : Type := SequenceProcessor -> result A * SequenceProcessor.

Definition ret {A} (a : A) : M A := fun self => (Ok a, self).

Definition bind {A B} (m : M A) (f : A -> M B) : M B :=
  fun self =>
    match m self with
    | (Ok a, self') => f a self'
    | (Raise e, self') => (Raise e, self')
    end.

Definition get_self : M SequenceProcessor := fun self => (Ok self, self).
Definition put_self (self' : SequenceProcessor) : M unit := fun _ => (Ok tt, self').
Definition lift {A} (r : result A) : M A := fun self => (r, self).

Declare Scope method_scope.
Delimit Scope method_scope with method.
Notation "x <- m ;; k" := (bind m (fun x => k))
  (at level 61, m at next level, right associativity) : method_scope.

(** [self._showed_seq_len_warning = b] *)
Definition set_showed_seq_len_warning (self : SequenceProcessor) (b : bool) :=
  mk_processor (token_pad self) (token_unk self) (token_bos self) (token_eos self)
    (vocab2idx self) (idx2vocab self) (build_in_vocab self) (min_count self)
    (allow_unk self) (build_vocab_from_labels self) (_initial_vocab_dic self) b.

(** The assignments of lines 94-98.  [vocab2idx] is the very dict object
    that [self._initial_vocab_dic] names (line 76), so the insertions of the
    loop are seen through that attribute too. *)
Definition set_vocab (self : SequenceProcessor)
    (vocab : Dict.t string Z) (inverse : Dict.t Z string) :=
  mk_processor (token_pad self) (token_unk self) (token_bos self) (token_eos self)
    vocab inverse (build_in_vocab self) (min_count self)
    (allow_unk self) (build_vocab_from_labels self) vocab
    (_showed_seq_len_warning self).

(** [SequenceProcessor.__init__].  [self0] is the instance as
    the call of [super().__init__] with the keyword arguments leaves it:
    [ABCProcessor] is not part of this module, whatever it does with the
    keyword arguments is in [self0]. *)
Definition __init__ (self0 : SequenceProcessor)
    (build_in_vocab : string) (min_count : Z) (build_vocab_from_labels : bool)
  : SequenceProcessor :=
  let initial_vocab_dic :=
    if String.eqb build_in_vocab "text" then
      Dict.of_pairs [(token_pad self0, 0); (token_unk self0, 1);
                     (token_bos self0, 2); (token_eos self0, 3)]
    else if String.eqb build_in_vocab "labeling" then
      Dict.of_pairs [(token_pad self0, 0)]
    else Dict.empty in
  mk_processor (token_pad self0) (token_unk self0) (token_bos self0) (token_eos self0)
    (vocab2idx self0) (idx2vocab self0)
    build_in_vocab min_count true build_vocab_from_labels
    initial_vocab_dic false.

(** *** build_vocab_generator *)

(** The corpus: what iterating a [CorpusGenerator] yields. *)
Definition CorpusGenerator := list (list string * list string).

(** Lines 86-87. *)
Definition count_token (token2count : Dict.t string Z) (token : string)
  : Dict.t string Z :=
  let count := Dict.get_default token2count token 0 in
  Dict.set token2count token (count + 1).

(** Lines 81-87, the body of the loop over the corpus. *)
Definition count_sample (from_labels : bool) (token2count : Dict.t string Z)
    (sample : list string * list string) : Dict.t string Z :=
  let target := if from_labels then snd sample else fst sample in
  fold_left count_token target token2count.

(** Lines 95-96, the body of the loop over the sorted counts. *)
Definition add_token (min_count : Z) (vocab2idx : Dict.t string Z)
    (item : string * Z) : Dict.t string Z :=
  if negb (Dict.contains vocab2idx (fst item)) && (min_count <=? snd item)
  then Dict.set vocab2idx (fst item) (len vocab2idx)
  else vocab2idx.

Definition swap {A B} (kv : A * B) : B * A := (snd kv, fst kv).

Definition build_vocab_generator (generator : option CorpusGenerator) : M unit :=
  fun self =>
    if Dict.is_empty (vocab2idx self) then
      match generator with
      | None => (Raise (TypeError "'NoneType' object is not iterable"), self)
      | Some generator =>
          let vocab2idx := _initial_vocab_dic self in
          let token2count :=
            fold_left (count_sample (build_vocab_from_labels self))
                      generator Dict.empty in
          let sorted_token2count := sorted_reverse snd (Dict.items token2count) in
          let token2count := Dict.of_pairs sorted_token2count in
          let vocab2idx :=
            fold_left (add_token (min_count self)) (Dict.items token2count)
                      vocab2idx in
          let idx2vocab := Dict.of_pairs (map swap (Dict.items vocab2idx)) in
          (Ok tt, set_vocab self vocab2idx idx2vocab)
      end
    else (Ok tt, self).

(** *** transform *)

Inductive transform_output :=
| TokenIds (token_ids : ndarray)
| TokenAndSegmentIds (token_ids segment_ids : ndarray).

(** Lines 122-127, the body of the loop over the samples. *)
Definition numerize (self : SequenceProcessor) (seq : list string)
  : result (list Z) :=
  let seq := [token_bos self] ++ seq ++ [token_eos self] in
  if allow_unk self then
    (unk_index <- getitem_str (vocab2idx self) (token_unk self) ;;
     Ok (map (fun token => Dict.get_default (vocab2idx self) token unk_index) seq))%result
  else
    map_result (fun token => getitem_str (vocab2idx self) token) seq.

(** Line 113: [max_position and seq_length > max_position]. *)
Definition exceeds_max_position (max_position : option Z) (seq_length : Z) : bool :=
  match max_position with
  | None => false
  | Some m => negb (m =? 0) && (m <? seq_length)
  end.

(** Lines 111-118: the width of the result. *)
Definition resolve_seq_length (samples : list (list string))
    (seq_length : option Z) (max_position : option Z) : M Z :=
  match seq_length with
  | None =>
      (seq_length <- lift (py_max (map (@len string) samples)) ;;
       let seq_length :=
         if exceeds_max_position max_position seq_length
         then match max_position with Some m => m | None => seq_length end
         else seq_length in
       self <- get_self ;;
       _ <- (if negb (_showed_seq_len_warning self)
             then put_self (set_showed_seq_len_warning self true)
             else ret tt) ;;
       ret seq_length)%method
  | Some seq_length => ret seq_length
  end.

Definition transform (samples : list (list string)) (seq_length : option Z)
    (max_position : option Z) (segment : bool) : M transform_output :=
  (seq_length <- resolve_seq_length samples seq_length max_position ;;
   self <- get_self ;;
   numerized_samples <- lift (map_result (numerize self) samples) ;;
   sample_index <- lift (pad_sequences numerized_samples seq_length) ;;
   let token_ids := sample_index in
   if segment
   then ret (TokenAndSegmentIds token_ids (np_zeros (shape token_ids)))
   else ret (TokenIds token_ids))%method.

(** *** inverse_transform *)

(** Lines 145-152, the body of the loop over [enumerate(labels)]. *)
Definition inverse_one (self : SequenceProcessor) (lengths : option (list Z))
    (item : Z * list Z) : result (list string) :=
  let index := fst item in
  let seq := snd item in
  (labels_ <- map_result (fun idx => getitem_int (idx2vocab self) idx) seq ;;
   match lengths with
   | Some lengths =>
       stop <- list_getitem lengths index ;;
       Ok (py_slice labels_ 1 stop)
   | None => Ok (py_slice labels_ 0 (-1))
   end)%result.

Definition inverse_transform (labels : list (list Z)) (lengths : option (list Z))
  : M (list (list string)) :=
  (self <- get_self ;;
   lift (map_result (inverse_one self lengths) (enumerate labels)))%method.

(** ** Notions the properties are stated with *)

(** [a] stands somewhere before an occurrence of [b]. *)
Definition precedes {A} (l : list A) (a b : A) : Prop :=
  exists l1 l2, l = l1 ++ a :: l2 /\ In b l2.

(** Sorted by decreasing key. *)
Definition descending {A} (key : A -> Z) : list A -> Prop :=
  StronglySorted (fun x y => key y <= key x).

(** The tokens that [build_vocab_generator] counts, in the order of the
    pass over the corpus. *)
Definition counted_stream (from_labels : bool) (corpus : CorpusGenerator)
  : list string :=
  List.concat (map (fun sample => if from_labels then snd sample else fst sample)
              corpus).

(** How often [token] occurs in a stream. *)
Definition occurrences (token : string) (stream : list string) : Z :=
  Z.of_nat (count_occ string_dec stream token).

(** The position at which [token] is first met. *)
Fixpoint first_index (token : string) (stream : list string) : option nat :=
  match stream with
  | [] => None
  | x :: stream' =>
      if String.eqb token x then Some O
      else option_map S (first_index token stream')
  end.

(** [a] is first met before [b] is first met. *)
Definition encountered_before (stream : list string) (a b : string) : bool :=
  match first_index a stream, first_index b stream with
  | Some i, Some j => Nat.ltb i j
  | _, _ => false
  end.

(** [tokens] numbered from [n] on, as consecutive insertions do. *)
Fixpoint assign_from (n : Z) (tokens : list string) : Dict.t string Z :=
  match tokens with
  | [] => []
  | token :: tokens' => (token, n) :: assign_from (n + 1) tokens'
  end.

(** The tokens of [items] that line 95 lets through, given the seed
    [initial]. *)
Definition admitted (min_count : Z) (initial : Dict.t string Z)
    (items : list (string * Z)) : list string :=
  map fst
    (filter (fun item => negb (Dict.contains initial (fst item))
                         && (min_count <=? snd item)) items).

(** The vocabulary that a first [build_vocab_generator] leaves, in closed
    form ([build_vocab_generator_fresh] proves it equal to what the code
    computes). *)
Definition built_vocab (self : SequenceProcessor) (corpus : CorpusGenerator)
  : Dict.t string Z :=
  let initial := _initial_vocab_dic self in
  let stream := counted_stream (build_vocab_from_labels self) corpus in
  let token2count := fold_left count_token stream Dict.empty in
  initial ++ assign_from (len initial)
               (admitted (min_count self) initial (sorted_reverse snd token2count)).

(** A sequence between its boundary tokens (line 122). *)
Definition wrapped (self : SequenceProcessor) (seq : list string) : list string :=
  [token_bos self] ++ seq ++ [token_eos self].

(** The first token of a list that the vocabulary lacks. *)
Definition first_missing (vocab : Dict.t string Z) (tokens : list string)
  : option string :=
  find (fun token => negb (Dict.contains vocab token)) tokens.

(** The width that the specification gives to an inferred length: the
    longest sample, cut to a non-zero [max_position] that it exceeds. *)
Definition inferred_length (longest : Z) (max_position : option Z) : Z :=
  match max_position with
  | None => longest
  | Some m => if m =? 0 then longest else Z.min longest m
  end.

(** The token-id array of what [transform] returns. *)
Definition token_ids_of (out : transform_output) : ndarray :=
  match out with
  | TokenIds token_ids => token_ids
  | TokenAndSegmentIds token_ids _ => token_ids
  end.

(** ** Instances used in examples *)

(** [self.allow_unk = b], assigned from outside after construction. *)
Definition set_allow_unk (self : SequenceProcessor) (b : bool) :=
  mk_processor (token_pad self) (token_unk self) (token_bos self) (token_eos self)
    (vocab2idx self) (idx2vocab self) (build_in_vocab self) (min_count self)
    b (build_vocab_from_labels self) (_initial_vocab_dic self)
    (_showed_seq_len_warning self).

(** Modelled from the spec: the instance as [ABCProcessor.__init__], which
    is not in this module, leaves it when no keyword argument is given:
    four different reserved tokens and an empty vocabulary.  The attributes
    that [SequenceProcessor.__init__] assigns afterwards hold placeholders. *)
Definition abc_default : SequenceProcessor :=
  mk_processor "[PAD]" "[UNK]" "[BOS]" "[EOS]" Dict.empty Dict.empty
               "" 0 false false Dict.empty false.

Definition example_corpus : CorpusGenerator :=
  [(["a"; "b"; "a"], ["O"; "O"; "O"]); (["b"; "b"], ["O"; "O"])].

(** A text processor with [min_count=2], built from [example_corpus]. *)
Definition text_example : SequenceProcessor :=
  snd (build_vocab_generator (Some example_corpus)
         (__init__ abc_default "text" 2 false)).

(** A label processor, built from the labels of [example_corpus]. *)
Definition labeling_example : SequenceProcessor :=
  snd (build_vocab_generator (Some example_corpus)
         (__init__ abc_default "labeling" 1 true)).

(** [text_example] with the fallback switched off. *)
Definition strict_example : SequenceProcessor :=
  set_allow_unk text_example false.

(** A corpus in which "x" and "y" occur equally often, "x" first. *)
Definition tie_corpus : CorpusGenerator :=
  [(["x"; "y"; "y"], ["O"; "O"; "O"]); (["z"; "x"], ["O"; "O"])].

(** ** The range of the array entries *)

(** The values that an [int32] array holds. *)
Definition int32 (idx : Z) : Prop := -2147483648 <= idx <= 2147483647.

(** Every index of the vocabulary is an [int32] value, so that
    [pad_sequences] can store it. *)
Definition indices_fit (self : SequenceProcessor) : Prop :=
  Forall int32 (Dict.values (vocab2idx self)).

(** ** Notions of the further properties *)

(** The indices [0, 1, ..., n-1], in this order. *)
Definition index_range (n : nat) : list Z := map Z.of_nat (seq 0 n).

(** What encoding and decoding make of a token: itself when the vocabulary
    has it, the UNK token otherwise. *)
Definition known_or_unk (self : SequenceProcessor) (token : string) : string :=
  if Dict.contains (vocab2idx self) token then token else token_unk self.

(** The first index of a list that the reverse mapping lacks. *)
Definition first_undecodable (inverse : Dict.t Z string) (indices : list Z)
  : option Z :=
  find (fun idx => negb (Dict.contains inverse idx)) indices.

(** A text processor with [min_count=2], before its vocabulary is built. *)
Definition text_fresh : SequenceProcessor :=
  __init__ abc_default "text" 2 false.

(** A corpus in which a reserved token occurs as often as an ordinary one. *)
Definition reserved_corpus : CorpusGenerator :=
  [(["[UNK]"; "a"; "[UNK]"; "a"], ["O"; "O"; "O"; "O"])].

(** The labels of [example_corpus] under other sentences, in one sample. *)
Definition relabelled_corpus : CorpusGenerator :=
  [(["x"], ["O"; "O"; "O"; "O"; "O"])].

(** A processor without seed whose build learns nothing. *)
Definition empty_example : SequenceProcessor :=
  snd (build_vocab_generator (Some example_corpus)
         (__init__ abc_default "none" 5 false)).

(** * Properties *)

(** ** Relative order in a list *)

Lemma precedes_head A (x b : A) l : In b l -> precedes (x :: l) x b.
Proof. intros Hb. exists [], l. auto. Qed.

Lemma precedes_tail A (x a b : A) l : precedes l a b -> precedes (x :: l) a b.
Proof.
  intros (l1 & l2 & -> & Hb). exists (x :: l1), l2. auto.
Qed.

Lemma precedes_cons_inv A (x a b : A) l :
  precedes (x :: l) a b -> (x = a /\ In b l) \/ precedes l a b.
Proof.
  intros (l1 & l2 & E & Hb). destruct l1 as [|y l1]; simpl in E.
  - injection E as -> ->. auto.
  - injection E as -> ->. right. exists l1, l2. auto.
Qed.

Lemma precedes_nil A (a b : A) : ~ precedes [] a b.
Proof. intros (l1 & l2 & E & _). destruct l1; discriminate. Qed.

Lemma precedes_In A (l : list A) a b : precedes l a b -> In a l /\ In b l.
Proof.
  intros (l1 & l2 & -> & Hb). split; apply in_or_app; right; simpl; auto.
Qed.

Lemma precedes_app_l A (l l' : list A) a b :
  precedes l a b -> precedes (l ++ l') a b.
Proof.
  intros (l1 & l2 & -> & Hb). exists l1, (l2 ++ l'). split.
  - now rewrite <- app_assoc.
  - apply in_or_app. auto.
Qed.

Lemma precedes_app_r A (l l' : list A) a b :
  precedes l' a b -> precedes (l ++ l') a b.
Proof.
  induction l; simpl; auto using precedes_tail.
Qed.

Lemma precedes_app_cross A (l l' : list A) a b :
  In a l -> In b l' -> precedes (l ++ l') a b.
Proof.
  intros Ha Hb. apply in_split in Ha as (l1 & l2 & ->).
  exists l1, (l2 ++ l'). split.
  - now rewrite <- app_assoc.
  - apply in_or_app. auto.
Qed.

Lemma precedes_map A B (f : A -> B) l a b :
  precedes l a b -> precedes (map f l) (f a) (f b).
Proof.
  intros (l1 & l2 & -> & Hb). exists (map f l1), (map f l2). split.
  - now rewrite map_app.
  - now apply in_map.
Qed.

Lemma precedes_filter A (p : A -> bool) l a b :
  precedes l a b -> p a = true -> p b = true -> precedes (filter p l) a b.
Proof.
  intros (l1 & l2 & -> & Hb) Ha Hpb.
  exists (filter p l1), (filter p l2). split.
  - rewrite filter_app. simpl. now rewrite Ha.
  - apply filter_In. auto.
Qed.

(** Under a map that is one-to-one on the list, order comes back. *)
Lemma precedes_map_inv A B (f : A -> B) l x y :
  precedes (map f l) x y ->
  exists a b, f a = x /\ f b = y /\ precedes l a b.
Proof.
  induction l as [|z l IH]; simpl; intros Hp.
  - now apply precedes_nil in Hp.
  - apply precedes_cons_inv in Hp as [[<- Hy]|Hp].
    + apply in_map_iff in Hy as (b & <- & Hb).
      exists z, b. auto using precedes_head.
    + destruct (IH Hp) as (a & b & Ha & Hb & Hab).
      exists a, b. auto using precedes_tail.
Qed.

(** ** Dictionaries *)

Section DictFacts.
Context {K V : Type} `{EqKey K}.
Implicit Types (d : Dict.t K V) (k : K) (v : V).

Lemma key_eqb_refl k : key_eqb k k = true.
  Proof. destruct (key_eqb_spec k k); congruence. Qed.

Lemma key_eqb_neq k k' : k <> k' -> key_eqb k k' = false.
  Proof. destruct (key_eqb_spec k k'); congruence. Qed.

Lemma get_In d k v : Dict.get d k = Some v -> In (k, v) d.
  Proof.
    induction d as [|[k' v'] d IH]; simpl; [discriminate|].
    destruct (key_eqb_spec k k') as [->|Hne]; intros E.
    - injection E as ->. auto.
    - auto.
  Qed.

Lemma get_None d k : Dict.get d k = None <-> ~ In k (Dict.keys d).
  Proof.
    induction d as [|[k' v'] d IH]; simpl.
    - tauto.
    - destruct (key_eqb_spec k k') as [->|Hne].
      + split; [discriminate|]. intros Hn. exfalso. auto.
      + rewrite IH. split; intros Hn.
        * intros [E|Hin]; [congruence|auto].
        * auto.
  Qed.

Lemma contains_true d k : Dict.contains d k = true <-> In k (Dict.keys d).
  Proof.
    unfold Dict.contains. destruct (Dict.get d k) eqn:E.
    - split; auto. intros _. apply get_In in E.
      apply (in_map fst) in E. exact E.
    - apply get_None in E. split; [discriminate|tauto].
  Qed.

Lemma contains_false d k : Dict.contains d k = false <-> ~ In k (Dict.keys d).
  Proof.
    rewrite <- contains_true. destruct (Dict.contains d k); split; congruence.
  Qed.

Lemma In_get d k v : NoDup (Dict.keys d) -> In (k, v) d -> Dict.get d k = Some v.
  Proof.
    induction d as [|[k' v'] d IH]; simpl; [tauto|].
    intros Hnd Hin. inversion Hnd as [|? ? Hk' Hnd']; subst.
    destruct Hin as [E|Hin].
    - injection E as -> ->. now rewrite key_eqb_refl.
    - destruct (key_eqb_spec k k') as [->|Hne]; auto.
      exfalso. apply Hk'. apply (in_map fst) in Hin. exact Hin.
  Qed.

Lemma set_absent d k v : Dict.contains d k = false -> Dict.set d k v = d ++ [(k, v)].
  Proof.
    rewrite contains_false.
    induction d as [|[k' v'] d IH]; simpl; intros Hn; auto.
    destruct (key_eqb_spec k k') as [->|Hne].
    - exfalso. auto.
    - f_equal. apply IH. auto.
  Qed.

Lemma keys_set_present d k v :
    Dict.contains d k = true -> Dict.keys (Dict.set d k v) = Dict.keys d.
  Proof.
    rewrite contains_true.
    induction d as [|[k' v'] d IH]; simpl; intros Hin; [tauto|].
    destruct (key_eqb_spec k k') as [->|Hne]; simpl; auto.
    f_equal. apply IH. destruct Hin; congruence.
  Qed.

Lemma get_set_same d k v : Dict.get (Dict.set d k v) k = Some v.
  Proof.
    induction d as [|[k' v'] d IH]; simpl.
    - now rewrite key_eqb_refl.
    - destruct (key_eqb_spec k k') as [->|Hne]; simpl.
      + now rewrite key_eqb_refl.
      + now rewrite key_eqb_neq.
  Qed.

Lemma get_set_other d k k' v :
    k <> k' -> Dict.get (Dict.set d k v) k' = Dict.get d k'.
  Proof.
    intros Hne. induction d as [|[k0 v0] d IH]; simpl.
    - rewrite key_eqb_neq; auto.
    - destruct (key_eqb_spec k k0) as [->|Hne0]; simpl.
      + rewrite key_eqb_neq; auto.
      + destruct (key_eqb k' k0); auto.
  Qed.

Lemma get_app d d' k :
    Dict.get (d ++ d') k =
    match Dict.get d k with Some v => Some v | None => Dict.get d' k end.
  Proof.
    induction d as [|[k0 v0] d IH]; simpl; auto.
    destruct (key_eqb k k0); auto.
  Qed.

  (** Assigning pairs with pairwise different keys, none of them present,
      appends them in order. *)
Lemma fold_set_fresh (pairs : list (K * V)) d :
    NoDup (Dict.keys d ++ map fst pairs) ->
    fold_left (fun d kv => Dict.set d (fst kv) (snd kv)) pairs d = d ++ pairs.
  Proof.
    revert d. induction pairs as [|[k v] pairs IH]; simpl; intros d Hnd.
    - now rewrite app_nil_r.
    - rewrite set_absent.
      + rewrite IH.
        * now rewrite <- app_assoc.
        * unfold Dict.keys in *. rewrite map_app. simpl.
          rewrite <- app_assoc. exact Hnd.
      + apply contains_false. intros Hin.
        apply NoDup_remove_2 in Hnd. apply Hnd. apply in_or_app. auto.
  Qed.

Lemma of_pairs_nodup (pairs : list (K * V)) :
    NoDup (map fst pairs) -> Dict.of_pairs pairs = pairs.
  Proof.
    intros Hnd. unfold Dict.of_pairs. now rewrite fold_set_fresh.
  Qed.
End DictFacts.

(** ** The stable descending sort *)

Section SortFacts.
Context {A : Type} (key : A -> Z).

Lemma insert_reverse_perm x l : Permutation (insert_reverse key x l) (x :: l).
  Proof.
    induction l as [|y l IH]; simpl; auto.
    destruct (key x <? key y); auto.
    rewrite IH. apply perm_swap.
  Qed.

Lemma sorted_reverse_perm l : Permutation (sorted_reverse key l) l.
  Proof.
    induction l as [|x l IH]; simpl; auto.
    rewrite insert_reverse_perm. auto.
  Qed.

Lemma In_insert_reverse x l y : In y (insert_reverse key x l) <-> y = x \/ In y l.
  Proof.
    split; intros Hin.
    - apply (Permutation_in _ (insert_reverse_perm x l)) in Hin.
      destruct Hin; auto.
    - apply (Permutation_in _ (Permutation_sym (insert_reverse_perm x l))).
      destruct Hin; simpl; auto.
  Qed.

Lemma In_sorted_reverse l y : In y (sorted_reverse key l) <-> In y l.
  Proof.
    split; apply Permutation_in;
      [|apply Permutation_sym]; apply sorted_reverse_perm.
  Qed.

Lemma insert_reverse_sorted x l :
    descending key l -> descending key (insert_reverse key x l).
  Proof.
    induction l as [|y l IH]; simpl; intros Hs.
    - constructor; constructor.
    - inversion Hs as [|? ? Hs' Hall]; subst.
      destruct (Z.ltb_spec (key x) (key y)) as [Hlt|Hge].
      + constructor; [apply IH; exact Hs'|].
        apply Forall_forall. intros z Hz.
        apply In_insert_reverse in Hz as [->|Hz]; [lia|].
        rewrite Forall_forall in Hall. auto.
      + constructor; [exact Hs|]. constructor; [lia|].
        rewrite Forall_forall in *. intros z Hz. specialize (Hall z Hz). lia.
  Qed.

Lemma sorted_reverse_sorted l : descending key (sorted_reverse key l).
  Proof.
    induction l; simpl; [constructor|]. now apply insert_reverse_sorted.
  Qed.

  (** Stability, as Python documents it: the elements of one key come out
      in the order in which they went in. *)
Lemma insert_reverse_filter x l c :
    filter (fun y => key y =? c) (insert_reverse key x l) =
    filter (fun y => key y =? c) (x :: l).
  Proof.
    induction l as [|y l IH]; auto.
    simpl insert_reverse.
    destruct (Z.ltb_spec (key x) (key y)) as [Hlt|Hge]; auto.
    simpl in *. rewrite IH.
    destruct (Z.eqb_spec (key x) c), (Z.eqb_spec (key y) c); auto; lia.
  Qed.

Lemma sorted_reverse_stable l c :
    filter (fun y => key y =? c) (sorted_reverse key l) =
    filter (fun y => key y =? c) l.
  Proof.
    induction l as [|x l IH]; auto.
    simpl sorted_reverse. rewrite insert_reverse_filter. simpl. now rewrite IH.
  Qed.

Lemma insert_reverse_keeps x l a b :
    precedes l a b -> precedes (insert_reverse key x l) a b.
  Proof.
    induction l as [|y l IH]; simpl; intros Hp.
    - now apply precedes_nil in Hp.
    - destruct (key x <? key y).
      + apply precedes_cons_inv in Hp as [[-> Hb]|Hp].
        * apply precedes_head. apply In_insert_reverse. auto.
        * auto using precedes_tail.
      + now apply precedes_tail.
  Qed.

Lemma insert_reverse_before x l b :
    In b l -> key b <= key x -> precedes (insert_reverse key x l) x b.
  Proof.
    induction l as [|y l IH]; simpl; intros Hb Hle; [tauto|].
    destruct (Z.ltb_spec (key x) (key y)) as [Hlt|Hge].
    - destruct Hb as [->|Hb]; [lia|]. apply precedes_tail. auto.
    - apply precedes_head. exact Hb.
  Qed.

Lemma insert_reverse_after x l a :
    descending key l -> In a l -> key x < key a ->
    precedes (insert_reverse key x l) a x.
  Proof.
    induction l as [|y l IH]; simpl; intros Hs Ha Hlt; [tauto|].
    inversion Hs as [|? ? Hs' Hall]; subst.
    destruct (Z.ltb_spec (key x) (key y)) as [Hxy|Hxy].
    - destruct Ha as [->|Ha].
      + apply precedes_head. apply In_insert_reverse. auto.
      + apply precedes_tail. auto.
    - exfalso. destruct Ha as [->|Ha]; [lia|].
      rewrite Forall_forall in Hall. specialize (Hall a Ha). lia.
  Qed.

  (** What stands before and is not smaller stays before. *)
Lemma sorted_reverse_keeps l a b :
    precedes l a b -> key b <= key a -> precedes (sorted_reverse key l) a b.
  Proof.
    induction l as [|x l IH]; simpl; intros Hp Hle.
    - now apply precedes_nil in Hp.
    - apply precedes_cons_inv in Hp as [[-> Hb]|Hp].
      + apply insert_reverse_before; auto. now apply In_sorted_reverse.
      + apply insert_reverse_keeps. auto.
  Qed.

  (** What is greater comes first. *)
Lemma sorted_reverse_greater l a b :
    In a l -> In b l -> key b < key a -> precedes (sorted_reverse key l) a b.
  Proof.
    induction l as [|x l IH]; simpl; [tauto|]. intros Ha Hb Hlt.
    destruct Ha as [->|Ha], Hb as [->|Hb].
    - lia.
    - apply insert_reverse_before; [now apply In_sorted_reverse|lia].
    - apply insert_reverse_after; auto using sorted_reverse_sorted.
      now apply In_sorted_reverse.
    - apply insert_reverse_keeps. auto.
  Qed.
End SortFacts.

(** ** Counting the tokens (lines 78-87) *)

Lemma fold_count_sample from_labels corpus d :
  fold_left (count_sample from_labels) corpus d =
  fold_left count_token (counted_stream from_labels corpus) d.
Proof.
  revert d. induction corpus as [|sample corpus IH]; intros d; auto.
  unfold counted_stream in *. simpl. rewrite fold_left_app. apply IH.
Qed.

Lemma count_token_keys d token :
  Dict.keys (count_token d token) =
  if Dict.contains d token then Dict.keys d else Dict.keys d ++ [token].
Proof.
  unfold count_token. destruct (Dict.contains d token) eqn:E.
  - now apply keys_set_present.
  - rewrite set_absent by exact E. unfold Dict.keys. now rewrite map_app.
Qed.

Lemma count_token_nodup d token :
  NoDup (Dict.keys d) -> NoDup (Dict.keys (count_token d token)).
Proof.
  intros Hnd. rewrite count_token_keys.
  destruct (Dict.contains d token) eqn:E; auto.
  apply contains_false in E.
  apply NoDup_app; auto.
  - constructor; [simpl; tauto|constructor].
  - intros x Hx [->|[]]. auto.
Qed.

Lemma fold_count_nodup stream d :
  NoDup (Dict.keys d) -> NoDup (Dict.keys (fold_left count_token stream d)).
Proof.
  revert d. induction stream; simpl; auto using count_token_nodup.
Qed.

Lemma occurrences_cons token x stream :
  occurrences token (x :: stream) =
  (if String.eqb token x then 1 else 0) + occurrences token stream.
Proof.
  unfold occurrences. simpl.
  destruct (string_dec x token) as [->|Hne].
  - rewrite String.eqb_refl. lia.
  - destruct (String.eqb_spec token x); [congruence|lia].
Qed.

Lemma occurrences_pos token stream :
  In token stream <-> 0 < occurrences token stream.
Proof.
  unfold occurrences. rewrite (count_occ_In string_dec). lia.
Qed.

Lemma count_token_get d token t :
  Dict.get_default (count_token d token) t 0 =
  Dict.get_default d t 0 + (if String.eqb t token then 1 else 0).
Proof.
  unfold count_token, Dict.get_default.
  destruct (String.eqb_spec t token) as [->|Hne].
  - now rewrite get_set_same.
  - rewrite get_set_other by congruence. lia.
Qed.

Lemma fold_count_get stream d t :
  Dict.get_default (fold_left count_token stream d) t 0 =
  Dict.get_default d t 0 + occurrences t stream.
Proof.
  revert d. induction stream as [|x stream IH]; intros d; simpl.
  - unfold occurrences. simpl. lia.
  - rewrite IH, count_token_get, occurrences_cons. lia.
Qed.

Lemma fold_count_keys stream d t :
  In t (Dict.keys (fold_left count_token stream d)) <->
  In t (Dict.keys d) \/ In t stream.
Proof.
  revert d. induction stream as [|x stream IH]; intros d; simpl.
  - tauto.
  - rewrite IH, count_token_keys.
    destruct (Dict.contains d x) eqn:E.
    + apply contains_true in E. split; [tauto|].
      intros [Hd|[->|Hs]]; auto.
    + rewrite in_app_iff. simpl. tauto.
Qed.

Lemma first_index_In token stream :
  In token stream <-> first_index token stream <> None.
Proof.
  induction stream as [|x stream IH]; simpl.
  - tauto.
  - destruct (String.eqb_spec token x) as [->|Hne].
    + split; [discriminate|auto].
    + rewrite IH. destruct (first_index token stream); simpl.
      * split; [discriminate|]. intros _. right. discriminate.
      * split; [intros [E|Hn]; congruence|tauto].
Qed.

Lemma encountered_before_cons stream x a b :
  encountered_before (x :: stream) a b = true ->
  (x = a /\ a <> b /\ In b stream) \/
  (x <> a /\ x <> b /\ encountered_before stream a b = true).
Proof.
  unfold encountered_before. simpl.
  destruct (String.eqb_spec a x) as [->|Ha], (String.eqb_spec b x) as [->|Hb].
  - simpl. discriminate.
  - intros Hlt. left. repeat split; auto.
    apply first_index_In. destruct (first_index b stream); discriminate.
  - destruct (first_index a stream); simpl; discriminate.
  - intros Hlt. right. repeat split; auto.
    destruct (first_index a stream), (first_index b stream); simpl in *;
      auto; discriminate.
Qed.

(** The keys of the count table stand in the order of first encounter. *)
Lemma fold_count_order stream d a b :
  precedes (Dict.keys d) a b \/
  (In a (Dict.keys d) /\ ~ In b (Dict.keys d) /\ In b stream) \/
  (~ In a (Dict.keys d) /\ ~ In b (Dict.keys d) /\
   encountered_before stream a b = true) ->
  precedes (Dict.keys (fold_left count_token stream d)) a b.
Proof.
  revert d. induction stream as [|x stream IH]; intros d Hcases.
  - simpl. destruct Hcases as [Hp|[(_ & _ & [])|(_ & _ & E)]]; auto.
    discriminate.
  - simpl. apply IH. rewrite count_token_keys.
    destruct Hcases as [Hp|[(Ha & Hb & Hin)|(Ha & Hb & E)]].
    + left. destruct (Dict.contains d x); auto using precedes_app_l.
    + destruct (Dict.contains d x) eqn:Ex.
      * apply contains_true in Ex. right. left.
        destruct Hin as [->|Hin]; tauto.
      * destruct Hin as [->|Hin].
        -- left. apply precedes_app_cross; simpl; auto.
        -- destruct (string_dec x b) as [->|Hne].
           ++ left. apply precedes_app_cross; simpl; auto.
           ++ right. left. rewrite !in_app_iff. simpl.
              repeat split; auto. intros [H|[H|[]]]; auto.
    + apply encountered_before_cons in E
        as [(-> & Hne & Hin)|(Hxa & Hxb & E)].
      * apply contains_false in Ha. rewrite Ha. right. left.
        rewrite !in_app_iff. simpl. repeat split; auto.
        intros [H|[H|[]]]; auto.
      * right. right. destruct (Dict.contains d x); auto.
        rewrite !in_app_iff. simpl. repeat split; auto.
        -- intros [H|[H|[]]]; auto.
        -- intros [H|[H|[]]]; auto.
Qed.

(** The count table of a stream: every token that occurs, once, with the
    number of its occurrences. *)
Lemma count_table_nodup stream :
  NoDup (Dict.keys (fold_left count_token stream Dict.empty)).
Proof. apply fold_count_nodup. constructor. Qed.

Lemma count_table_In stream t c :
  In (t, c) (fold_left count_token stream Dict.empty) <->
  In t stream /\ c = occurrences t stream.
Proof.
  split.
  - intros Hin. split.
    + apply (in_map fst) in Hin. apply fold_count_keys in Hin as [[]|Hin]. auto.
    + apply In_get in Hin; [|apply count_table_nodup].
      pose proof (fold_count_get stream Dict.empty t) as Hg.
      unfold Dict.get_default in Hg. rewrite Hin in Hg. simpl in Hg. lia.
  - intros [Hin ->].
    assert (Hk : In t (Dict.keys (fold_left count_token stream Dict.empty)))
      by (apply fold_count_keys; auto).
    apply contains_true in Hk. unfold Dict.contains in Hk.
    destruct (Dict.get (fold_left count_token stream Dict.empty) t) as [c|] eqn:E;
      [|discriminate].
    pose proof (fold_count_get stream Dict.empty t) as Hg.
    unfold Dict.get_default in Hg. rewrite E in Hg. simpl in Hg.
    apply get_In in E. now replace (occurrences t stream) with c by lia.
Qed.

Lemma count_table_order stream a b :
  encountered_before stream a b = true ->
  precedes (fold_left count_token stream Dict.empty)
           (a, occurrences a stream) (b, occurrences b stream).
Proof.
  intros E.
  assert (Hp : precedes (Dict.keys (fold_left count_token stream Dict.empty)) a b).
  { apply fold_count_order. right. right. simpl. auto. }
  apply precedes_map_inv in Hp as ([a' ca] & [b' cb] & Ha & Hb & Hp).
  simpl in Ha, Hb. subst a' b'.
  destruct (precedes_In Hp) as [Hina Hinb].
  apply count_table_In in Hina as [_ ->].
  apply count_table_In in Hinb as [_ ->]. exact Hp.
Qed.

(** ** Filling the vocabulary (lines 94-98) *)

Lemma len_app A (l l' : list A) : len (l ++ l') = len l + len l'.
Proof. unfold len. rewrite length_app. lia. Qed.

Lemma contains_app_other (d : Dict.t string Z) k v k' :
  k <> k' -> Dict.contains (d ++ [(k, v)]) k' = Dict.contains d k'.
Proof.
  intros Hne. unfold Dict.contains. rewrite get_app. simpl.
  destruct (Dict.get d k'); auto.
  destruct (String.eqb_spec k' k); congruence.
Qed.

Lemma add_token_fold min_count items acc :
  NoDup (map fst items) ->
  fold_left (add_token min_count) items acc =
  acc ++ assign_from (len acc) (admitted min_count acc items).
Proof.
  revert acc. induction items as [|[token c] items IH]; intros acc Hnd.
  - simpl. now rewrite app_nil_r.
  - inversion Hnd as [|? ? Hfresh Hnd']; subst. simpl fold_left.
    unfold add_token at 2, admitted. simpl.
    destruct (negb (Dict.contains acc token) && (min_count <=? c)) eqn:E.
    + apply andb_prop in E as [E _]. apply negb_true_iff in E.
      rewrite set_absent by exact E. rewrite IH by exact Hnd'.
      rewrite <- app_assoc, len_app. simpl. do 3 f_equal.
      unfold admitted. f_equal. apply filter_ext_in.
      intros [t' c'] Hin. simpl. rewrite contains_app_other; auto.
      intros ->. apply Hfresh. apply (in_map fst) in Hin. exact Hin.
    + apply IH. exact Hnd'.
Qed.

Lemma build_vocab_generator_fresh self corpus :
  vocab2idx self = Dict.empty ->
  build_vocab_generator (Some corpus) self =
  (Ok tt, set_vocab self (built_vocab self corpus)
                    (Dict.of_pairs (map swap (built_vocab self corpus)))).
Proof.
  intros Hempty. unfold build_vocab_generator. rewrite Hempty. simpl.
  unfold Dict.items. rewrite fold_count_sample.
  set (table := fold_left count_token _ Dict.empty).
  assert (Hnd : NoDup (map fst (sorted_reverse snd table))).
  { apply (Permutation_NoDup (l := map fst table)).
    - apply Permutation_map, Permutation_sym, sorted_reverse_perm.
    - apply count_table_nodup. }
  rewrite of_pairs_nodup by exact Hnd.
  rewrite add_token_fold by exact Hnd.
  reflexivity.
Qed.

Lemma build_vocab_generator_built self generator :
  vocab2idx self <> Dict.empty ->
  build_vocab_generator generator self = (Ok tt, self).
Proof.
  unfold build_vocab_generator, Dict.empty.
  destruct (vocab2idx self); [congruence|reflexivity].
Qed.

Lemma assign_from_keys n tokens : Dict.keys (assign_from n tokens) = tokens.
Proof.
  revert n. induction tokens as [|t tokens IH]; intros n; simpl; auto.
  f_equal. apply IH.
Qed.

Lemma assign_from_len n tokens : len (assign_from n tokens) = len tokens.
Proof.
  unfold len. rewrite <- (assign_from_keys n tokens) at 2.
  unfold Dict.keys. now rewrite length_map.
Qed.

Lemma assign_from_values n tokens idx :
  In idx (Dict.values (assign_from n tokens)) <-> n <= idx < n + len tokens.
Proof.
  revert n. induction tokens as [|t tokens IH]; intros n; simpl.
  - unfold len. simpl. lia.
  - rewrite IH. unfold len. simpl List.length. lia.
Qed.

Lemma assign_from_values_nodup n tokens :
  NoDup (Dict.values (assign_from n tokens)).
Proof.
  revert n. induction tokens as [|t tokens IH]; intros n; simpl; constructor.
  - rewrite assign_from_values. lia.
  - apply IH.
Qed.

Lemma assign_from_In n tokens t idx :
  In (t, idx) (assign_from n tokens) -> In t tokens /\ n <= idx < n + len tokens.
Proof.
  intros Hin. split.
  - apply (in_map fst) in Hin. fold (Dict.keys (assign_from n tokens)) in Hin.
    now rewrite assign_from_keys in Hin.
  - apply assign_from_values. apply (in_map snd) in Hin. exact Hin.
Qed.

Lemma assign_from_get n tokens t :
  In t tokens ->
  exists idx, Dict.get (assign_from n tokens) t = Some idx /\
              n <= idx < n + len tokens.
Proof.
  intros Hin. rewrite <- (assign_from_keys n) in Hin.
  apply contains_true in Hin. unfold Dict.contains in Hin.
  destruct (Dict.get (assign_from n tokens) t) as [idx|] eqn:E; [|discriminate].
  exists idx. split; auto. apply get_In in E. now apply assign_from_In in E.
Qed.

(** Earlier in the list, smaller index. *)
Lemma assign_from_order n tokens a b :
  NoDup tokens -> precedes tokens a b ->
  exists i j, Dict.get (assign_from n tokens) a = Some i /\
              Dict.get (assign_from n tokens) b = Some j /\ i < j.
Proof.
  revert n. induction tokens as [|t tokens IH]; intros n Hnd Hp.
  - now apply precedes_nil in Hp.
  - inversion Hnd as [|? ? Hfresh Hnd']; subst. simpl.
    apply precedes_cons_inv in Hp as [[-> Hb]|Hp].
    + rewrite String.eqb_refl.
      destruct (String.eqb_spec b a) as [->|Hne]; [tauto|].
      destruct (assign_from_get (n + 1) tokens b Hb) as (j & Hj & Hrange).
      exists n, j. repeat split; auto. lia.
    + destruct (precedes_In Hp) as [Ha Hb].
      destruct (String.eqb_spec a t) as [->|Hat]; [tauto|].
      destruct (String.eqb_spec b t) as [->|Hbt]; [tauto|].
      apply IH; auto.
Qed.

Lemma admitted_In min_count initial items t :
  In t (admitted min_count initial items) <->
  exists c, In (t, c) items /\ ~ In t (Dict.keys initial) /\ min_count <= c.
Proof.
  unfold admitted. rewrite in_map_iff. split.
  - intros ([t' c] & <- & Hin). apply filter_In in Hin as [Hin Hpass].
    simpl in *. apply andb_prop in Hpass as [Hfresh Hmin].
    apply negb_true_iff, contains_false in Hfresh.
    exists c. repeat split; auto. lia.
  - intros (c & Hin & Hfresh & Hmin). exists (t, c). split; auto.
    apply filter_In. split; auto. simpl.
    apply contains_false in Hfresh. rewrite Hfresh. simpl. lia.
Qed.

Lemma admitted_nodup min_count initial items :
  NoDup (map fst items) -> NoDup (admitted min_count initial items).
Proof.
  unfold admitted. induction items as [|item items IH]; simpl; intros Hnd.
  - constructor.
  - inversion Hnd as [|? ? Hfresh Hnd']; subst.
    destruct (negb _ && _); simpl; auto.
    constructor; auto. intros Hin. apply Hfresh.
    apply in_map_iff in Hin as (item' & E & Hin).
    apply filter_In in Hin as [Hin _]. rewrite <- E. now apply in_map.
Qed.

(** ** The vocabulary after a first build *)

Lemma built_vocab_get_new self corpus t :
  ~ In t (Dict.keys (_initial_vocab_dic self)) ->
  Dict.get (built_vocab self corpus) t =
  Dict.get
    (assign_from (len (_initial_vocab_dic self))
       (admitted (min_count self) (_initial_vocab_dic self)
          (sorted_reverse snd
             (fold_left count_token
                (counted_stream (build_vocab_from_labels self) corpus)
                Dict.empty)))) t.
Proof.
  intros Hfresh. unfold built_vocab. rewrite get_app.
  apply get_None in Hfresh. now rewrite Hfresh.
Qed.

Lemma admitted_sorted_In self corpus t :
  In t (admitted (min_count self) (_initial_vocab_dic self)
          (sorted_reverse snd
             (fold_left count_token
                (counted_stream (build_vocab_from_labels self) corpus)
                Dict.empty))) <->
  In t (counted_stream (build_vocab_from_labels self) corpus) /\
  ~ In t (Dict.keys (_initial_vocab_dic self)) /\
  min_count self <=
    occurrences t (counted_stream (build_vocab_from_labels self) corpus).
Proof.
  rewrite admitted_In. split.
  - intros (c & Hin & Hfresh & Hmin).
    apply In_sorted_reverse, count_table_In in Hin as [Hin ->]. auto.
  - intros (Hin & Hfresh & Hmin).
    exists (occurrences t (counted_stream (build_vocab_from_labels self) corpus)).
    repeat split; auto. apply In_sorted_reverse, count_table_In. auto.
Qed.

Lemma admitted_sorted_nodup self corpus :
  NoDup (admitted (min_count self) (_initial_vocab_dic self)
           (sorted_reverse snd
              (fold_left count_token
                 (counted_stream (build_vocab_from_labels self) corpus)
                 Dict.empty))).
Proof.
  apply admitted_nodup.
  apply (Permutation_NoDup (l := map fst (fold_left count_token
           (counted_stream (build_vocab_from_labels self) corpus) Dict.empty))).
  - apply Permutation_map, Permutation_sym, sorted_reverse_perm.
  - apply count_table_nodup.
Qed.

(** C5.  Frequency threshold: on a first build with a threshold of at least
    one, a token outside the reserved seed that occurs at most
    [min_count - 1] times in the counted stream is absent from the
    vocabulary, and one that occurs [min_count] times or more is present. *)
Theorem frequency_threshold self corpus token :
  vocab2idx self = Dict.empty ->
  ~ In token (Dict.keys (_initial_vocab_dic self)) ->
  1 <= min_count self ->
  exists self',
    build_vocab_generator (Some corpus) self = (Ok tt, self') /\
    let n := occurrences token
               (counted_stream (build_vocab_from_labels self) corpus) in
    (n <= min_count self - 1 -> Dict.contains (vocab2idx self') token = false) /\
    (min_count self <= n -> Dict.contains (vocab2idx self') token = true).
Proof.
  intros Hempty Hfresh Hmin. eexists. split.
  - now apply build_vocab_generator_fresh.
  - simpl. split; intros Hn.
    + apply contains_false. intros Hin. apply contains_true in Hin.
      unfold Dict.contains in Hin.
      rewrite built_vocab_get_new in Hin by exact Hfresh.
      fold (Dict.contains (assign_from (len (_initial_vocab_dic self))
        (admitted (min_count self) (_initial_vocab_dic self)
          (sorted_reverse snd (fold_left count_token
            (counted_stream (build_vocab_from_labels self) corpus)
            Dict.empty)))) token) in Hin.
      apply contains_true in Hin. rewrite assign_from_keys in Hin.
      apply admitted_sorted_In in Hin. lia.
    + unfold Dict.contains. rewrite built_vocab_get_new by exact Hfresh.
      destruct (assign_from_get (len (_initial_vocab_dic self))
        (admitted (min_count self) (_initial_vocab_dic self)
          (sorted_reverse snd (fold_left count_token
            (counted_stream (build_vocab_from_labels self) corpus)
            Dict.empty))) token) as (idx & -> & _); auto.
      apply admitted_sorted_In. repeat split; auto.
      apply occurrences_pos. lia.
Qed.

(** C6.  Stable tie-break: on a first build, of two tokens outside the
    reserved seed that occur in the counted stream and meet the threshold,
    the more frequent one gets the smaller index, and of two equally
    frequent ones the one that was first met earlier does. *)
Theorem stable_tie_break self corpus a b :
  vocab2idx self = Dict.empty ->
  ~ In a (Dict.keys (_initial_vocab_dic self)) ->
  ~ In b (Dict.keys (_initial_vocab_dic self)) ->
  In a (counted_stream (build_vocab_from_labels self) corpus) ->
  In b (counted_stream (build_vocab_from_labels self) corpus) ->
  min_count self <=
    occurrences a (counted_stream (build_vocab_from_labels self) corpus) ->
  min_count self <=
    occurrences b (counted_stream (build_vocab_from_labels self) corpus) ->
  exists self' ia ib,
    build_vocab_generator (Some corpus) self = (Ok tt, self') /\
    Dict.get (vocab2idx self') a = Some ia /\
    Dict.get (vocab2idx self') b = Some ib /\
    let stream := counted_stream (build_vocab_from_labels self) corpus in
    (occurrences b stream < occurrences a stream -> ia < ib) /\
    (occurrences a stream = occurrences b stream ->
     encountered_before stream a b = true -> ia < ib).
Proof.
  intros Hempty Hfa Hfb Hina Hinb Hma Hmb.
  set (stream := counted_stream (build_vocab_from_labels self) corpus) in *.
  set (table := fold_left count_token stream Dict.empty).
  set (tokens := admitted (min_count self) (_initial_vocab_dic self)
                   (sorted_reverse snd table)).
  assert (Ha : In a tokens) by (apply admitted_sorted_In; auto).
  assert (Hb : In b tokens) by (apply admitted_sorted_In; auto).
  destruct (assign_from_get (len (_initial_vocab_dic self)) tokens a Ha)
    as (ia & Hia & _).
  destruct (assign_from_get (len (_initial_vocab_dic self)) tokens b Hb)
    as (ib & Hib & _).
  assert (Horder : precedes (sorted_reverse snd table)
                     (a, occurrences a stream) (b, occurrences b stream) ->
                   ia < ib).
  { intros Hp.
    assert (Hp' : precedes tokens a b).
    { apply (precedes_map fst (a := (a, occurrences a stream))
                              (b := (b, occurrences b stream))).
      apply precedes_filter; auto; simpl.
      - apply contains_false in Hfa. rewrite Hfa. simpl. lia.
      - apply contains_false in Hfb. rewrite Hfb. simpl. lia. }
    destruct (assign_from_order (len (_initial_vocab_dic self))
                (admitted_sorted_nodup self corpus) Hp')
      as (i & j & Hi & Hj & Hlt).
    fold stream table tokens in Hi, Hj. congruence. }
  exists (set_vocab self (built_vocab self corpus)
            (Dict.of_pairs (map swap (built_vocab self corpus)))), ia, ib.
  split; [now apply build_vocab_generator_fresh|].
  simpl vocab2idx. rewrite !built_vocab_get_new by assumption.
  fold stream table tokens. repeat split; auto.
  - intros Hlt. apply Horder. apply sorted_reverse_greater; simpl; auto.
    + apply count_table_In. auto.
    + apply count_table_In. auto.
  - intros Heq Henc. apply Horder. apply sorted_reverse_keeps; simpl; [|lia].
    now apply count_table_order.
Qed.

(** C7.  Idempotent construction: once a build has left a non-empty
    vocabulary, building again from the same corpus returns normally and
    leaves the instance, so [vocab2idx] and [idx2vocab], as it is. *)
Theorem idempotent_construction generator self self1 :
  build_vocab_generator generator self = (Ok tt, self1) ->
  vocab2idx self1 <> Dict.empty ->
  build_vocab_generator generator self1 = (Ok tt, self1) /\
  vocab2idx (snd (build_vocab_generator generator self1)) = vocab2idx self1 /\
  idx2vocab (snd (build_vocab_generator generator self1)) = idx2vocab self1.
Proof.
  intros _ Hne. rewrite build_vocab_generator_built by exact Hne. auto.
Qed.

(** ** The reverse mapping (line 98) *)

Section Inverse.
Context {K V : Type} `{EqKey K} `{EqKey V}.

Lemma swap_keys (d : Dict.t K V) : map fst (map swap d) = Dict.values d.
Proof. unfold Dict.values. rewrite map_map. reflexivity. Qed.

Lemma swap_values (d : Dict.t K V) : map snd (map swap d) = Dict.keys d.
Proof. unfold Dict.keys. rewrite map_map. reflexivity. Qed.

Lemma In_swap (d : Dict.t K V) k v : In (v, k) (map swap d) <-> In (k, v) d.
Proof.
  rewrite in_map_iff. split.
  - intros ([k' v'] & E & Hin). unfold swap in E. simpl in E. congruence.
  - intros Hin. exists (k, v). auto.
Qed.

(** On a dict whose values are pairwise different, [dict] of the swapped
    items is the inverse function. *)
Lemma inverse_lookup (d : Dict.t K V) k v :
  NoDup (Dict.keys d) -> NoDup (Dict.values d) ->
  Dict.get d k = Some v <-> Dict.get (Dict.of_pairs (map swap d)) v = Some k.
Proof.
  intros Hk Hv.
  rewrite of_pairs_nodup by (rewrite swap_keys; exact Hv).
  split; intros E.
  - apply In_get; [unfold Dict.keys; rewrite swap_keys; exact Hv|].
    apply In_swap. now apply get_In.
  - apply In_get; [exact Hk|]. apply In_swap. now apply get_In.
Qed.
End Inverse.

(** ** The reserved seed of mode "text" (lines 57-63) *)

Lemma NoDup4_inv A (a b c d : A) :
  NoDup [a; b; c; d] ->
  a <> b /\ a <> c /\ a <> d /\ b <> c /\ b <> d /\ c <> d.
Proof.
  intros Hnd.
  inversion Hnd as [|? ? Ha Hnd1]; subst.
  inversion Hnd1 as [|? ? Hb Hnd2]; subst.
  inversion Hnd2 as [|? ? Hc Hnd3]; subst.
  simpl in *. repeat split; intros ->; tauto.
Qed.

Lemma text_initial_vocab self0 min_count from_labels :
  NoDup [token_pad self0; token_unk self0; token_bos self0; token_eos self0] ->
  _initial_vocab_dic (__init__ self0 "text" min_count from_labels) =
  [(token_pad self0, 0); (token_unk self0, 1);
   (token_bos self0, 2); (token_eos self0, 3)].
Proof.
  intros Hnd. unfold __init__. cbn [_initial_vocab_dic].
  change (String.eqb "text" "text") with true. cbn iota.
  apply of_pairs_nodup. exact Hnd.
Qed.

(** C4.  Reserved tokens and contiguity: a first build in mode "text", on
    any corpus, maps PAD, UNK, BOS, EOS to 0, 1, 2, 3; the indices are
    pairwise different and are exactly 0 .. |V|-1; [idx2vocab] is the
    inverse of [vocab2idx]. *)
Theorem reserved_tokens_and_contiguity self0 threshold from_labels corpus :
  NoDup [token_pad self0; token_unk self0; token_bos self0; token_eos self0] ->
  vocab2idx self0 = Dict.empty ->
  exists self',
    build_vocab_generator (Some corpus)
      (__init__ self0 "text" threshold from_labels) = (Ok tt, self') /\
    Dict.get (vocab2idx self') (token_pad self') = Some 0 /\
    Dict.get (vocab2idx self') (token_unk self') = Some 1 /\
    Dict.get (vocab2idx self') (token_bos self') = Some 2 /\
    Dict.get (vocab2idx self') (token_eos self') = Some 3 /\
    NoDup (Dict.keys (vocab2idx self')) /\
    NoDup (Dict.values (vocab2idx self')) /\
    (forall idx, In idx (Dict.values (vocab2idx self')) <->
                 0 <= idx < len (vocab2idx self')) /\
    (forall token idx,
        Dict.get (vocab2idx self') token = Some idx <->
        Dict.get (idx2vocab self') idx = Some token).
Proof.
  intros Hnd Hempty.
  set (self := __init__ self0 "text" threshold from_labels).
  assert (Hinit := text_initial_vocab self0 threshold from_labels Hnd).
  fold self in Hinit.
  assert (Hfresh : vocab2idx self = Dict.empty) by exact Hempty.
  exists (set_vocab self (built_vocab self corpus)
            (Dict.of_pairs (map swap (built_vocab self corpus)))).
  split; [now apply build_vocab_generator_fresh|].
  cbn [vocab2idx idx2vocab token_pad token_unk token_bos token_eos set_vocab].
  pose proof (admitted_sorted_nodup self corpus) as Htok.
  assert (Hout : forall t,
    In t (admitted (min_count self) (_initial_vocab_dic self)
            (sorted_reverse snd (fold_left count_token
               (counted_stream (build_vocab_from_labels self) corpus)
               Dict.empty))) ->
    ~ In t (Dict.keys (_initial_vocab_dic self))).
  { intros t Ht. apply admitted_sorted_In in Ht. tauto. }
  unfold built_vocab.
  set (tokens := admitted _ _ _) in *. clearbody tokens.
  rewrite Hinit in *.
  change (len [(token_pad self0, 0); (token_unk self0, 1);
               (token_bos self0, 2); (token_eos self0, 3)]) with 4.
  change (token_pad self) with (token_pad self0).
  change (token_unk self) with (token_unk self0).
  change (token_bos self) with (token_bos self0).
  change (token_eos self) with (token_eos self0).
  destruct (NoDup4_inv Hnd) as (Hpu & Hpb & Hpe & Hub & Hue & Hbe).
  assert (Hkeys : NoDup (Dict.keys
    ([(token_pad self0, 0); (token_unk self0, 1); (token_bos self0, 2);
      (token_eos self0, 3)] ++ assign_from 4 tokens))).
  { unfold Dict.keys. rewrite map_app.
    fold (Dict.keys (assign_from 4 tokens)). rewrite assign_from_keys.
    apply NoDup_app; auto. intros t Ht Ht'. exact (Hout t Ht' Ht). }
  assert (Hvals : NoDup (Dict.values
    ([(token_pad self0, 0); (token_unk self0, 1); (token_bos self0, 2);
      (token_eos self0, 3)] ++ assign_from 4 tokens))).
  { unfold Dict.values. rewrite map_app.
    fold (Dict.values (assign_from 4 tokens)).
    apply NoDup_app.
    - simpl. repeat constructor; simpl; lia.
    - apply assign_from_values_nodup.
    - intros idx Hidx Hidx'. apply assign_from_values in Hidx'.
      simpl in Hidx. lia. }
  assert (Hrange : forall idx,
    In idx (Dict.values
      ([(token_pad self0, 0); (token_unk self0, 1); (token_bos self0, 2);
        (token_eos self0, 3)] ++ assign_from 4 tokens)) <->
    0 <= idx < len
      ([(token_pad self0, 0); (token_unk self0, 1); (token_bos self0, 2);
        (token_eos self0, 3)] ++ assign_from 4 tokens)).
  { intros idx. unfold Dict.values. rewrite map_app, in_app_iff.
    fold (Dict.values (assign_from 4 tokens)).
    rewrite assign_from_values, len_app, assign_from_len.
    unfold len. cbn [map snd In List.length]. lia. }
  repeat split; auto.
  - simpl. now rewrite String.eqb_refl.
  - simpl. rewrite (proj2 (String.eqb_neq _ _)) by congruence.
    now rewrite String.eqb_refl.
  - simpl. rewrite !(proj2 (String.eqb_neq (token_bos self0) _)) by congruence.
    now rewrite String.eqb_refl.
  - simpl. rewrite !(proj2 (String.eqb_neq (token_eos self0) _)) by congruence.
    now rewrite String.eqb_refl.
  - now apply Hrange.
  - now apply Hrange.
  - intros Hidx. now apply Hrange.
  - now apply inverse_lookup.
  - now apply inverse_lookup.
Qed.

(** ** transform *)

Lemma map_result_ok A B (f : A -> result B) (g : A -> B) l :
  (forall x, In x l -> f x = Ok (g x)) -> map_result f l = Ok (map g l).
Proof.
  induction l as [|x l IH]; simpl; intros Hf; auto.
  rewrite Hf by auto. simpl. rewrite IH by auto. reflexivity.
Qed.

Lemma find_app A (p : A -> bool) l1 l2 :
  find p (l1 ++ l2) =
  match find p l1 with Some x => Some x | None => find p l2 end.
Proof.
  induction l1 as [|x l1 IH]; simpl; auto. destruct (p x); auto.
Qed.

Lemma find_all_false A (p : A -> bool) l :
  (forall x, In x l -> p x = false) -> find p l = None.
Proof.
  induction l as [|x l IH]; simpl; intros Hp; auto.
  rewrite Hp by auto. auto.
Qed.

(** Strict lookup of a list of tokens: the first missing one is the key of
    the [KeyError]. *)
Lemma strict_lookup vocab tokens :
  match first_missing vocab tokens with
  | Some token =>
      map_result (getitem_str vocab) tokens = Raise (KeyError_str token)
  | None =>
      forall default,
        map_result (getitem_str vocab) tokens =
        Ok (map (fun token => Dict.get_default vocab token default) tokens)
  end.
Proof.
  unfold first_missing.
  induction tokens as [|t tokens IH]; simpl.
  - reflexivity.
  - unfold getitem_str at 1 3, Dict.contains, Dict.get_default at 1.
    destruct (Dict.get vocab t) as [idx|]; simpl; auto.
    destruct (find _ tokens).
    + now rewrite IH.
    + intros default. now rewrite (IH default).
Qed.

Lemma numerize_strict self seq :
  allow_unk self = false ->
  numerize self seq =
  map_result (getitem_str (vocab2idx self)) (wrapped self seq).
Proof. intros Hstrict. unfold numerize. now rewrite Hstrict. Qed.

Lemma numerize_strict_batch self samples :
  allow_unk self = false ->
  match first_missing (vocab2idx self)
          (List.concat (map (wrapped self) samples)) with
  | Some token =>
      map_result (numerize self) samples = Raise (KeyError_str token)
  | None =>
      forall default,
        map_result (numerize self) samples =
        Ok (map (fun seq =>
                   map (fun token =>
                          Dict.get_default (vocab2idx self) token default)
                       (wrapped self seq)) samples)
  end.
Proof.
  intros Hstrict. unfold first_missing.
  induction samples as [|seq samples IH].
  - simpl. reflexivity.
  - cbn [map List.concat map_result]. rewrite find_app.
    rewrite (numerize_strict self seq Hstrict).
    pose proof (strict_lookup (vocab2idx self) (wrapped self seq)) as Hseq.
    unfold first_missing in Hseq. revert Hseq.
    destruct (find _ (wrapped self seq)); intros Hseq.
    + now rewrite Hseq.
    + revert IH. destruct (find _ (List.concat _)); intros IH.
      * rewrite (Hseq 0). cbn [rbind]. now rewrite IH.
      * intros default. rewrite (Hseq default). cbn [rbind].
        now rewrite (IH default).
Qed.

Lemma numerize_fallback_batch self samples unk_index :
  allow_unk self = true ->
  Dict.get (vocab2idx self) (token_unk self) = Some unk_index ->
  map_result (numerize self) samples =
  Ok (map (fun seq =>
             map (fun token =>
                    Dict.get_default (vocab2idx self) token unk_index)
                 (wrapped self seq)) samples).
Proof.
  intros Hallow Hunk. apply map_result_ok. intros seq _.
  unfold numerize, getitem_str. now rewrite Hallow, Hunk.
Qed.

(** [transform] after the length resolution. *)
Lemma transform_unfold samples seq_length max_position segment self :
  transform samples seq_length max_position segment self =
  match resolve_seq_length samples seq_length max_position self with
  | (Ok n, self1) =>
      match map_result (numerize self1) samples with
      | Ok numerized_samples =>
          match pad_sequences numerized_samples n with
          | Ok token_ids =>
              (Ok (if segment
                   then TokenAndSegmentIds token_ids (np_zeros (shape token_ids))
                   else TokenIds token_ids), self1)
          | Raise e => (Raise e, self1)
          end
      | Raise e => (Raise e, self1)
      end
  | (Raise e, self1) => (Raise e, self1)
  end.
Proof.
  unfold transform, bind, lift, get_self, ret.
  destruct (resolve_seq_length _ _ _ _) as [[n|e] self1]; auto.
  destruct (map_result _ _); auto.
  destruct (pad_sequences _ _); auto.
  destruct segment; auto.
Qed.

(** The length resolution touches the warning flag only. *)
Lemma resolve_seq_length_frame samples seq_length max_position self :
  snd (resolve_seq_length samples seq_length max_position self) = self \/
  (seq_length = None /\ samples <> [] /\
   _showed_seq_len_warning self = false /\
   snd (resolve_seq_length samples seq_length max_position self) =
   set_showed_seq_len_warning self true).
Proof.
  unfold resolve_seq_length, bind, lift, get_self, put_self, ret.
  destruct seq_length as [n|]; auto.
  destruct samples as [|seq samples]; simpl; auto.
  destruct (_showed_seq_len_warning self) eqn:E; simpl; auto.
  right. repeat split; auto. discriminate.
Qed.

Lemma numerize_flag self b seq :
  numerize (set_showed_seq_len_warning self b) seq = numerize self seq.
Proof. reflexivity. Qed.

Lemma resolve_seq_length_numerize samples seq_length max_position self r self1 :
  resolve_seq_length samples seq_length max_position self = (r, self1) ->
  map_result (numerize self1) samples = map_result (numerize self) samples.
Proof.
  intros E.
  destruct (resolve_seq_length_frame samples seq_length max_position self)
    as [Hsame|(_ & _ & _ & Hset)]; rewrite E in *; simpl in *; subst self1;
    reflexivity.
Qed.

Lemma pad_sequences_ok sequences maxlen :
  0 <= maxlen ->
  pad_sequences sequences maxlen =
  Ok (mk_ndarray (len sequences, maxlen) (map (pad_post maxlen) sequences)).
Proof.
  intros Hle. unfold pad_sequences.
  destruct (Z.ltb_spec maxlen 0); [lia|reflexivity].
Qed.

Lemma pad_post_len maxlen s : 0 <= maxlen -> len (pad_post maxlen s) = maxlen.
Proof.
  intros Hle. unfold pad_post, len.
  rewrite length_app, repeat_length, length_firstn. lia.
Qed.

(** What [transform] returns once the numerization is known. *)
Lemma transform_numerized samples seq_length max_position segment self n self1
    numerized_samples :
  resolve_seq_length samples seq_length max_position self = (Ok n, self1) ->
  0 <= n ->
  map_result (numerize self) samples = Ok numerized_samples ->
  exists out,
    transform samples seq_length max_position segment self = (Ok out, self1) /\
    token_ids_of out =
    mk_ndarray (len numerized_samples, n)
               (map (pad_post n) numerized_samples).
Proof.
  intros Hres Hn Hnum. rewrite transform_unfold, Hres.
  rewrite (resolve_seq_length_numerize _ _ _ _ Hres), Hnum.
  rewrite pad_sequences_ok by exact Hn.
  destruct segment; eexists; split; reflexivity.
Qed.

(** *** Entries within [int32] *)

Lemma get_fits self token idx :
  indices_fit self -> Dict.get (vocab2idx self) token = Some idx -> int32 idx.
Proof.
  unfold indices_fit. rewrite Forall_forall. intros Hfit Hget.
  apply Hfit. apply get_In in Hget. apply (in_map snd) in Hget. exact Hget.
Qed.

Lemma zero_fits : int32 0.
Proof. unfold int32. lia. Qed.

Lemma In_pad_post maxlen s x : In x (pad_post maxlen s) -> In x s \/ x = 0.
Proof.
  unfold pad_post. rewrite in_app_iff. intros [Hin|Hin].
  - left. rewrite <- (firstn_skipn (Z.to_nat maxlen) s).
    apply in_or_app. auto.
  - right. now apply repeat_spec in Hin.
Qed.

Lemma pad_post_fits maxlen s : Forall int32 s -> Forall int32 (pad_post maxlen s).
Proof.
  rewrite !Forall_forall. intros Hs x Hin.
  apply In_pad_post in Hin as [Hin| ->]; auto using zero_fits.
Qed.

(** A row of looked-up indices holds [int32] values when the default does. *)
Lemma lookup_row_fits self default tokens :
  indices_fit self -> int32 default ->
  Forall int32
    (map (fun token => Dict.get_default (vocab2idx self) token default) tokens).
Proof.
  intros Hfit Hdefault. apply Forall_forall. intros idx Hin.
  apply in_map_iff in Hin as (token & <- & _). unfold Dict.get_default.
  destruct (Dict.get (vocab2idx self) token) as [idx|] eqn:E; auto.
  exact (@get_fits self token idx Hfit E).
Qed.

(** So does a row of tokens that the vocabulary all has, whatever the
    default. *)
Lemma known_row_fits self default tokens :
  indices_fit self ->
  first_missing (vocab2idx self) tokens = None ->
  Forall int32
    (map (fun token => Dict.get_default (vocab2idx self) token default) tokens).
Proof.
  intros Hfit Hnone. apply Forall_forall. intros idx Hin.
  apply in_map_iff in Hin as (token & <- & Hin).
  pose proof (find_none _ _ Hnone token Hin) as Hknown. simpl in Hknown.
  apply negb_false_iff in Hknown. unfold Dict.contains in Hknown.
  unfold Dict.get_default.
  destruct (Dict.get (vocab2idx self) token) as [idx|] eqn:E; [|discriminate].
  exact (@get_fits self token idx Hfit E).
Qed.

Lemma first_missing_sample self samples seq :
  first_missing (vocab2idx self)
    (List.concat (map (wrapped self) samples)) = None ->
  In seq samples ->
  first_missing (vocab2idx self) (wrapped self seq) = None.
Proof.
  intros Hnone Hseq. apply find_all_false. intros token Hin.
  apply (find_none _ _ Hnone). apply in_concat.
  exists (wrapped self seq). split; auto. now apply in_map.
Qed.

(** C8 (as amended).  Unknown-token policy, for a call whose length
    resolution gave the width [n].  When [n] is not negative and the
    indices of the vocabulary are [int32] values: with [allow_unk] and UNK
    in the vocabulary, every wrapped token maps to its own index when it has
    one and to the UNK index otherwise; without [allow_unk], every wrapped
    token maps to its own index when all have one; the entries of the array
    are [int32] values.  Without [allow_unk], when a wrapped token is
    missing, the call raises [KeyError] with the first missing token as its
    only content. *)
Theorem unknown_token_policy samples seq_length max_position segment self n self1 :
  resolve_seq_length samples seq_length max_position self = (Ok n, self1) ->
  (0 <= n -> indices_fit self -> allow_unk self = true ->
   forall unk_index,
     Dict.get (vocab2idx self) (token_unk self) = Some unk_index ->
     exists out,
       transform samples seq_length max_position segment self = (Ok out, self1) /\
       rows (token_ids_of out) =
       map (fun seq =>
              pad_post n
                (map (fun token =>
                        Dict.get_default (vocab2idx self) token unk_index)
                     (wrapped self seq))) samples /\
       Forall (Forall int32) (rows (token_ids_of out))) /\
  (0 <= n -> indices_fit self -> allow_unk self = false ->
   first_missing (vocab2idx self)
     (List.concat (map (wrapped self) samples)) = None ->
   forall default,
     exists out,
       transform samples seq_length max_position segment self = (Ok out, self1) /\
       rows (token_ids_of out) =
       map (fun seq =>
              pad_post n
                (map (fun token =>
                        Dict.get_default (vocab2idx self) token default)
                     (wrapped self seq))) samples /\
       Forall (Forall int32) (rows (token_ids_of out))) /\
  (allow_unk self = false ->
   forall token,
     first_missing (vocab2idx self)
       (List.concat (map (wrapped self) samples)) = Some token ->
     transform samples seq_length max_position segment self =
     (Raise (KeyError_str token), self1)).
Proof.
  intros Hres. split; [|split].
  - intros Hn Hfit Hallow unk_index Hunk.
    destruct (transform_numerized samples seq_length max_position segment self
                Hres Hn (numerize_fallback_batch self samples Hallow Hunk))
      as (out & Hout & Hids).
    exists out. split; auto. rewrite Hids. cbn [rows]. rewrite map_map.
    split; auto. apply Forall_forall. intros row Hrow.
    apply in_map_iff in Hrow as (seq & <- & _).
    apply pad_post_fits, lookup_row_fits; auto.
    exact (@get_fits self (token_unk self) unk_index Hfit Hunk).
  - intros Hn Hfit Hstrict Hnone default.
    pose proof (numerize_strict_batch self samples Hstrict) as Hnum.
    rewrite Hnone in Hnum.
    destruct (transform_numerized samples seq_length max_position segment self
                Hres Hn (Hnum default)) as (out & Hout & Hids).
    exists out. split; auto. rewrite Hids. cbn [rows]. rewrite map_map.
    split; auto. apply Forall_forall. intros row Hrow.
    apply in_map_iff in Hrow as (seq & <- & Hseq).
    apply pad_post_fits, known_row_fits; auto.
    exact (@first_missing_sample self samples seq Hnone Hseq).
  - intros Hstrict token Hsome.
    pose proof (numerize_strict_batch self samples Hstrict) as Hnum.
    rewrite Hsome in Hnum.
    rewrite transform_unfold, Hres.
    now rewrite (resolve_seq_length_numerize _ _ _ _ Hres), Hnum.
Qed.

(** ** The inferred length (lines 111-118) *)

Lemma fold_left_max_spec l x :
  let m := fold_left Z.max l x in
  In m (x :: l) /\ forall y, In y (x :: l) -> y <= m.
Proof.
  revert x. induction l as [|z l IH]; intros x; simpl.
  - split; auto. intros y [->|[]]. lia.
  - destruct (IH (Z.max x z)) as [Hin Hmax]. simpl in Hin, Hmax. split.
    + destruct Hin as [E|Hin]; auto.
      destruct (Z.max_spec x z) as [[_ Hm]|[_ Hm]]; rewrite Hm in *; auto.
    + intros y [->|[->|Hy]].
      * specialize (Hmax (Z.max y z)). lia.
      * specialize (Hmax (Z.max x y)). lia.
      * auto.
Qed.

Lemma py_max_spec l m :
  In m l -> (forall y, In y l -> y <= m) -> py_max l = Ok m.
Proof.
  destruct l as [|x l]; [intros []|]. intros Hin Hmax. unfold py_max.
  destruct (fold_left_max_spec l x) as [Hin' Hmax'].
  f_equal. specialize (Hmax _ Hin'). specialize (Hmax' _ Hin). lia.
Qed.

Lemma resolve_seq_length_inferred samples max_position self longest :
  In longest (map (@len string) samples) ->
  (forall seq, In seq samples -> len seq <= longest) ->
  resolve_seq_length samples None max_position self =
  (Ok (inferred_length longest max_position),
   set_showed_seq_len_warning self true).
Proof.
  intros Hin Hmax. unfold resolve_seq_length, bind, lift, get_self, put_self, ret.
  rewrite (py_max_spec _ Hin).
  - assert (E : (if exceeds_max_position max_position longest
                 then match max_position with Some m => m | None => longest end
                 else longest) = inferred_length longest max_position).
    { unfold exceeds_max_position, inferred_length.
      destruct max_position as [m|]; auto.
      destruct (Z.eqb_spec m 0), (Z.ltb_spec m longest); simpl; lia. }
    rewrite E.
    destruct self as [? ? ? ? ? ? ? ? ? ? ? flag]; destruct flag; reflexivity.
  - intros y Hy. apply in_map_iff in Hy as (seq & <- & Hseq). auto.
Qed.

(** ** Frame *)

Lemma transform_snd samples seq_length max_position segment self :
  snd (transform samples seq_length max_position segment self) =
  snd (resolve_seq_length samples seq_length max_position self).
Proof.
  rewrite transform_unfold.
  destruct (resolve_seq_length _ _ _ _) as [[n|e] self1]; auto.
  destruct (map_result _ _); auto.
  destruct (pad_sequences _ _); auto.
Qed.

(** C10.  Frame: [transform] leaves every attribute but
    [_showed_seq_len_warning] as it is; that flag is never reset, and it is
    set when the length of a non-empty batch is inferred; [inverse_transform]
    leaves the whole instance as it is. *)
Theorem transform_inverse_transform_frame
    samples seq_length max_position segment labels lengths self :
  let self' := snd (transform samples seq_length max_position segment self) in
  (self' = self \/ self' = set_showed_seq_len_warning self true) /\
  vocab2idx self' = vocab2idx self /\
  idx2vocab self' = idx2vocab self /\
  build_in_vocab self' = build_in_vocab self /\
  min_count self' = min_count self /\
  allow_unk self' = allow_unk self /\
  build_vocab_from_labels self' = build_vocab_from_labels self /\
  _initial_vocab_dic self' = _initial_vocab_dic self /\
  (_showed_seq_len_warning self = true ->
   _showed_seq_len_warning self' = true) /\
  (seq_length = None -> samples <> [] ->
   _showed_seq_len_warning self' = true) /\
  (seq_length <> None ->
   _showed_seq_len_warning self' = _showed_seq_len_warning self) /\
  snd (inverse_transform labels lengths self) = self.
Proof.
  intros self'. subst self'. rewrite transform_snd.
  assert (Hauto : seq_length = None -> samples <> [] ->
                  _showed_seq_len_warning
                    (snd (resolve_seq_length samples seq_length max_position self))
                  = true).
  { intros -> Hne. destruct samples as [|seq samples]; [congruence|].
    unfold resolve_seq_length, bind, lift, get_self, put_self, ret. simpl.
    destruct (_showed_seq_len_warning self) eqn:E; simpl; auto. }
  destruct (resolve_seq_length_frame samples seq_length max_position self)
    as [Hsame|(Hnone & Hne & Hflag & Hset)].
  - rewrite Hsame in *. repeat split; auto.
  - rewrite Hset in *. repeat split; auto. congruence.
Qed.

(** C9.  Dead [allow_unk] parameter: whatever the arguments, and whatever
    [ABCProcessor.__init__] made of the keyword arguments, [allow_unk] is
    true when the constructor returns. *)
Theorem allow_unk_after_init self0 mode threshold from_labels :
  allow_unk (__init__ self0 mode threshold from_labels) = true.
Proof. reflexivity. Qed.

(** ** Round trip *)

Lemma pad_post_exact s : pad_post (len s) s = s.
Proof.
  unfold pad_post, len. rewrite Nat2Z.id, firstn_all, Nat.sub_diag.
  simpl. apply app_nil_r.
Qed.

Lemma map_result_inverse A B (f : B -> result A) (g : A -> B) l :
  (forall x, In x l -> f (g x) = Ok x) -> map_result f (map g l) = Ok l.
Proof.
  induction l as [|x l IH]; simpl; intros Hf; auto.
  rewrite Hf by auto. simpl. rewrite IH by auto. reflexivity.
Qed.

Lemma len_wrapped self seq : len (wrapped self seq) = len seq + 2.
Proof.
  unfold wrapped, len. simpl. rewrite length_app. simpl. lia.
Qed.

(** [(bos :: seq ++ [eos])[1:len(seq)+2]] keeps [eos]. *)
Lemma slice_wrapped_full self seq :
  py_slice (wrapped self seq) 1 (len seq + 2) = seq ++ [token_eos self].
Proof.
  unfold py_slice, slice_bound. rewrite len_wrapped.
  assert (0 <= len seq) by (unfold len; lia).
  destruct (Z.ltb_spec 1 0); [lia|].
  destruct (Z.ltb_spec (len seq + 2) 0); [lia|].
  rewrite !Z.min_l by lia.
  replace (len seq + 2 - 1) with (len (seq ++ [token_eos self]))
    by (rewrite len_app; unfold len; simpl; lia).
  change (Z.to_nat 1) with 1%nat. unfold wrapped. simpl skipn.
  unfold len. rewrite Nat2Z.id. apply firstn_all.
Qed.

(** [(bos :: seq ++ [eos])[1:len(seq)+1]] is [seq]. *)
Lemma slice_wrapped_inner self seq :
  py_slice (wrapped self seq) 1 (len seq + 1) = seq.
Proof.
  unfold py_slice, slice_bound. rewrite len_wrapped.
  assert (0 <= len seq) by (unfold len; lia).
  destruct (Z.ltb_spec 1 0); [lia|].
  destruct (Z.ltb_spec (len seq + 1) 0); [lia|].
  rewrite !Z.min_l by lia.
  replace (len seq + 1 - 1) with (len seq) by lia.
  change (Z.to_nat 1) with 1%nat. unfold wrapped. simpl skipn.
  unfold len. rewrite Nat2Z.id.
  rewrite firstn_app, firstn_all, Nat.sub_diag. simpl. apply app_nil_r.
Qed.

Lemma inverse_transform_one self row stop decoded :
  map_result (fun idx => getitem_int (idx2vocab self) idx) row = Ok decoded ->
  inverse_transform [row] (Some [stop]) self =
  (Ok [py_slice decoded 1 stop], self).
Proof.
  intros Hdec.
  unfold inverse_transform, bind, get_self, lift, enumerate. simpl.
  unfold inverse_one. simpl. rewrite Hdec. reflexivity.
Qed.

(** C1 (as amended).  Round trip: when the indices of the vocabulary are
    [int32] values, [idx2vocab] inverts [vocab2idx] and UNK, BOS, EOS and
    every token of [T] are in the vocabulary,
    [transform([T], seq_length=len(T)+2)] returns one row of [int32]
    entries, and [inverse_transform] of it with [lengths=[len(T)+2]] gives
    [T] followed by EOS; with [lengths=[len(T)+1]] it gives [T]. *)
Theorem round_trip_keeps_eos self T max_position :
  indices_fit self ->
  (forall token idx,
      Dict.get (vocab2idx self) token = Some idx ->
      Dict.get (idx2vocab self) idx = Some token) ->
  (forall token,
      In token (token_unk self :: wrapped self T) ->
      Dict.contains (vocab2idx self) token = true) ->
  exists token_ids,
    transform [T] (Some (len T + 2)) max_position false self =
      (Ok (TokenIds token_ids), self) /\
    Forall (Forall int32) (rows token_ids) /\
    inverse_transform (rows token_ids) (Some [len T + 2]) self =
      (Ok [T ++ [token_eos self]], self) /\
    inverse_transform (rows token_ids) (Some [len T + 1]) self =
      (Ok [T], self).
Proof.
  intros Hfit Hinv Hknown.
  assert (Hres : resolve_seq_length [T] (Some (len T + 2)) max_position self =
                 (Ok (len T + 2), self)) by reflexivity.
  assert (Hn : 0 <= len T + 2) by (unfold len; lia).
  assert (Hnum : exists default,
    int32 default /\
    map_result (numerize self) [T] =
    Ok [map (fun token => Dict.get_default (vocab2idx self) token default)
            (wrapped self T)]).
  { destruct (allow_unk self) eqn:Hallow.
    - pose proof (Hknown (token_unk self) (or_introl eq_refl)) as Hunk.
      unfold Dict.contains in Hunk.
      destruct (Dict.get (vocab2idx self) (token_unk self)) as [u|] eqn:E;
        [|discriminate].
      exists u. split; [exact (@get_fits self (token_unk self) u Hfit E)|].
      exact (numerize_fallback_batch self [T] Hallow E).
    - exists 0. split; [exact zero_fits|].
      pose proof (numerize_strict_batch self [T] Hallow) as Hstrict.
      assert (Hnone : first_missing (vocab2idx self)
                        (List.concat (map (wrapped self) [T])) = None).
      { unfold first_missing. apply find_all_false. intros token Hin.
        simpl in Hin. rewrite app_nil_r in Hin.
        rewrite Hknown by (right; exact Hin). reflexivity. }
      rewrite Hnone in Hstrict. apply Hstrict. }
  destruct Hnum as (default & Hdefault & Hnum).
  assert (Hints : Forall int32
    (map (fun token => Dict.get_default (vocab2idx self) token default)
         (wrapped self T)))
    by (apply lookup_row_fits; assumption).
  set (row := map (fun token => Dict.get_default (vocab2idx self) token default)
                  (wrapped self T)) in *.
  assert (Hrow : pad_post (len T + 2) row = row).
  { rewrite <- (len_wrapped self T).
    replace (len (wrapped self T)) with (len row)
      by (unfold len, row; now rewrite length_map).
    apply pad_post_exact. }
  assert (Hdec : map_result (fun idx => getitem_int (idx2vocab self) idx) row
                 = Ok (wrapped self T)).
  { apply map_result_inverse. intros token Hin.
    pose proof (Hknown token (or_intror Hin)) as Hc.
    unfold Dict.contains in Hc. unfold Dict.get_default, getitem_int.
    destruct (Dict.get (vocab2idx self) token) as [idx|] eqn:E; [|discriminate].
    now rewrite (Hinv _ _ E). }
  exists (mk_ndarray (len [row], len T + 2) [row]). split; [|split].
  - rewrite transform_unfold, Hres, Hnum, pad_sequences_ok by exact Hn.
    cbn [map]. now rewrite Hrow.
  - cbn [rows]. constructor; [exact Hints|constructor].
  - cbn [rows]. rewrite !(inverse_transform_one self _ _ Hdec).
    now rewrite slice_wrapped_full, slice_wrapped_inner.
Qed.

(** ** The example of the specification *)

Ltac decide_eqb :=
  repeat match goal with
  | |- context [String.eqb ?x ?y] =>
      first [ rewrite (String.eqb_refl x)
            | rewrite (proj2 (String.eqb_neq x y)) by intuition congruence ]
  end.

(** C2.  End-to-end example: with reserved tokens that are pairwise
    different and are neither "a" nor "b", a text processor with
    [min_count=2] builds from the example corpus the vocabulary
    PAD:0, UNK:1, BOS:2, EOS:3, "b":4, "a":5, and then
    [transform([["a","b"]], seq_length=5)] is [[2,5,4,3,0]]. *)
Theorem end_to_end_example self0 :
  NoDup [token_pad self0; token_unk self0; token_bos self0; token_eos self0] ->
  ~ In "a" [token_pad self0; token_unk self0; token_bos self0; token_eos self0] ->
  ~ In "b" [token_pad self0; token_unk self0; token_bos self0; token_eos self0] ->
  vocab2idx self0 = Dict.empty ->
  exists self',
    build_vocab_generator (Some example_corpus)
      (__init__ self0 "text" 2 false) = (Ok tt, self') /\
    vocab2idx self' =
      [(token_pad self0, 0); (token_unk self0, 1); (token_bos self0, 2);
       (token_eos self0, 3); ("b", 4); ("a", 5)] /\
    transform [["a"; "b"]] (Some 5) None false self' =
      (Ok (TokenIds (mk_ndarray (1, 5) [[2; 5; 4; 3; 0]])), self').
Proof.
  intros Hnd Ha Hb Hempty.
  set (self := __init__ self0 "text" 2 false).
  assert (Hinit := text_initial_vocab self0 2 false Hnd). fold self in Hinit.
  destruct (NoDup4_inv Hnd) as (Hpu & Hpb & Hpe & Hub & Hue & Hbe).
  simpl in Ha, Hb.
  assert (Hvocab : built_vocab self example_corpus =
      [(token_pad self0, 0); (token_unk self0, 1); (token_bos self0, 2);
       (token_eos self0, 3); ("b", 4); ("a", 5)]).
  { unfold built_vocab. rewrite Hinit.
    change (sorted_reverse snd _) with [("b", 3); ("a", 2)].
    unfold admitted, Dict.contains. cbn -[String.eqb].
    rewrite !(proj2 (String.eqb_neq _ _)) by intuition congruence. reflexivity. }
  exists (set_vocab self (built_vocab self example_corpus)
            (Dict.of_pairs (map swap (built_vocab self example_corpus)))).
  split; [now apply build_vocab_generator_fresh|].
  split; [exact Hvocab|].
  rewrite transform_unfold. cbn [resolve_seq_length ret].
  unfold numerize, getitem_str, Dict.get_default.
  cbn [map_result allow_unk vocab2idx set_vocab token_unk token_bos token_eos self __init__].
  rewrite Hvocab. cbn -[String.eqb]. decide_eqb. reflexivity.
Qed.

(** ** Instances of the theorems, and counterexamples *)

Ltac distinct_tokens :=
  vm_compute; repeat constructor; simpl; intuition congruence.

Lemma inverse_of_swapped self :
  idx2vocab self = Dict.of_pairs (map swap (vocab2idx self)) ->
  NoDup (Dict.keys (vocab2idx self)) ->
  NoDup (Dict.values (vocab2idx self)) ->
  forall token idx,
    Dict.get (vocab2idx self) token = Some idx ->
    Dict.get (idx2vocab self) idx = Some token.
Proof.
  intros E Hk Hv token idx Hget. rewrite E.
  exact (proj1 (@inverse_lookup _ _ _ _ (vocab2idx self) token idx Hk Hv) Hget).
Qed.

Lemma text_example_inverse token idx :
  Dict.get (vocab2idx text_example) token = Some idx ->
  Dict.get (idx2vocab text_example) idx = Some token.
Proof.
  apply inverse_of_swapped.
  - reflexivity.
  - distinct_tokens.
  - distinct_tokens.
Qed.

Lemma text_example_fits : indices_fit text_example.
Proof.
  unfold indices_fit. cbv -[int32].
  repeat (apply Forall_cons; [unfold int32; lia|]). apply Forall_nil.
Qed.

Lemma round_trip_keeps_eos_witness :
  exists token_ids,
    transform [["a"; "b"]] (Some (len ["a"; "b"] + 2)) None false text_example =
      (Ok (TokenIds token_ids), text_example) /\
    Forall (Forall int32) (rows token_ids) /\
    inverse_transform (rows token_ids) (Some [len ["a"; "b"] + 2]) text_example =
      (Ok [["a"; "b"] ++ [token_eos text_example]], text_example) /\
    inverse_transform (rows token_ids) (Some [len ["a"; "b"] + 1]) text_example =
      (Ok [["a"; "b"]], text_example).
Proof.
  apply (@round_trip_keeps_eos text_example ["a"; "b"] None).
  - apply text_example_fits.
  - apply text_example_inverse.
  - intros token Hin. vm_compute in Hin.
    repeat destruct Hin as [<-|Hin]; try reflexivity. destruct Hin.
Defined.

(** C1, counterexample: with [lengths=[len(T)+2]] the round trip of
    ["a","b"] ends in the EOS token, so it is not ["a","b"]. *)
Lemma round_trip_counterexample :
  (forall token, In token ["a"; "b"] ->
     Dict.contains (vocab2idx text_example) token = true) /\
  exists token_ids,
    transform [["a"; "b"]] (Some (len ["a"; "b"] + 2)) None false text_example =
      (Ok (TokenIds token_ids), text_example) /\
    inverse_transform (rows token_ids) (Some [len ["a"; "b"] + 2]) text_example =
      (Ok [["a"; "b"; "[EOS]"]], text_example) /\
    ["a"; "b"; "[EOS]"] <> ["a"; "b"].
Proof.
  split.
  - intros token [<-|[<-|[]]]; reflexivity.
  - exists (mk_ndarray (1, 4) [[2; 5; 4; 3]]).
    repeat split; try reflexivity. discriminate.
Qed.

Lemma end_to_end_example_witness :
  exists self',
    build_vocab_generator (Some example_corpus)
      (__init__ abc_default "text" 2 false) = (Ok tt, self') /\
    vocab2idx self' =
      [("[PAD]", 0); ("[UNK]", 1); ("[BOS]", 2); ("[EOS]", 3);
       ("b", 4); ("a", 5)] /\
    transform [["a"; "b"]] (Some 5) None false self' =
      (Ok (TokenIds (mk_ndarray (1, 5) [[2; 5; 4; 3; 0]])), self').
Proof.
  apply (@end_to_end_example abc_default).
  - distinct_tokens.
  - vm_compute. intuition congruence.
  - vm_compute. intuition congruence.
  - reflexivity.
Defined.

(** C3.  The inferred width at the batch [["a","b"]]: the call returns the
    one row [2,5], two wide, the length of the sample as passed in, while the
    sequence with BOS and EOS is the four indices [2,5,4,3]: the index of "b"
    and that of EOS are cut off. *)
Theorem automatic_length_failing_input :
  transform [["a"; "b"]] None None false text_example =
    (Ok (TokenIds (mk_ndarray (1, 2) [[2; 5]])),
     set_showed_seq_len_warning text_example true) /\
  numerize text_example ["a"; "b"] = Ok [2; 5; 4; 3] /\
  len (wrapped text_example ["a"; "b"]) = 4.
Proof. repeat split; reflexivity. Qed.

Lemma reserved_tokens_and_contiguity_witness :
  exists self',
    build_vocab_generator (Some example_corpus)
      (__init__ abc_default "text" 2 false) = (Ok tt, self') /\
    Dict.get (vocab2idx self') (token_pad self') = Some 0 /\
    Dict.get (vocab2idx self') (token_unk self') = Some 1 /\
    Dict.get (vocab2idx self') (token_bos self') = Some 2 /\
    Dict.get (vocab2idx self') (token_eos self') = Some 3 /\
    NoDup (Dict.keys (vocab2idx self')) /\
    NoDup (Dict.values (vocab2idx self')) /\
    (forall idx, In idx (Dict.values (vocab2idx self')) <->
                 0 <= idx < len (vocab2idx self')) /\
    (forall token idx,
        Dict.get (vocab2idx self') token = Some idx <->
        Dict.get (idx2vocab self') idx = Some token).
Proof.
  apply (@reserved_tokens_and_contiguity abc_default 2 false example_corpus).
  - distinct_tokens.
  - reflexivity.
Defined.

Lemma frequency_threshold_witness :
  exists self',
    build_vocab_generator (Some example_corpus)
      (__init__ abc_default "text" 3 false) = (Ok tt, self') /\
    let n := occurrences "a" (counted_stream false example_corpus) in
    (n <= 3 - 1 -> Dict.contains (vocab2idx self') "a" = false) /\
    (3 <= n -> Dict.contains (vocab2idx self') "a" = true).
Proof.
  apply (@frequency_threshold (__init__ abc_default "text" 3 false)
           example_corpus "a").
  - reflexivity.
  - vm_compute. intuition congruence.
  - vm_compute. discriminate.
Defined.

Lemma stable_tie_break_witness :
  exists self' ia ib,
    build_vocab_generator (Some tie_corpus)
      (__init__ abc_default "text" 2 false) = (Ok tt, self') /\
    Dict.get (vocab2idx self') "x" = Some ia /\
    Dict.get (vocab2idx self') "y" = Some ib /\
    ia < ib.
Proof.
  destruct (@stable_tie_break (__init__ abc_default "text" 2 false)
              tie_corpus "x" "y")
    as (self' & ia & ib & Hbuild & Hx & Hy & _ & Htie).
  - reflexivity.
  - vm_compute. intuition congruence.
  - vm_compute. intuition congruence.
  - vm_compute. auto.
  - vm_compute. auto.
  - vm_compute. discriminate.
  - vm_compute. discriminate.
  - exists self', ia, ib.
    split; [exact Hbuild|]. split; [exact Hx|]. split; [exact Hy|].
    apply Htie; reflexivity.
Defined.

Lemma idempotent_construction_witness :
  build_vocab_generator (Some example_corpus) text_example =
    (Ok tt, text_example) /\
  vocab2idx (snd (build_vocab_generator (Some example_corpus) text_example)) =
    vocab2idx text_example /\
  idx2vocab (snd (build_vocab_generator (Some example_corpus) text_example)) =
    idx2vocab text_example.
Proof.
  apply (@idempotent_construction (Some example_corpus)
           (__init__ abc_default "text" 2 false) text_example).
  - reflexivity.
  - discriminate.
Defined.

Lemma unknown_token_policy_witness :
  exists out,
    transform [["a"; "q"]] (Some 5) None false text_example =
      (Ok out, text_example) /\
    rows (token_ids_of out) = [[2; 5; 1; 3; 0]].
Proof.
  destruct (@unknown_token_policy [["a"; "q"]] (Some 5) None false
              text_example 5 text_example) as (Hfallback & _ & _).
  - reflexivity.
  - destruct (Hfallback ltac:(lia) text_example_fits eq_refl 1 eq_refl)
      as (out & Hout & Hrows & _).
    exists out. auto.
Defined.

(** C8, counterexample.  With [allow_unk] true a label processor, whose
    vocabulary has no UNK, raises for a batch of known labels; and without
    [allow_unk] the exception is the same whichever sequence holds the
    missing token: it names the token only. *)
Lemma unknown_token_policy_counterexample :
  (allow_unk labeling_example = true /\
   Dict.contains (vocab2idx labeling_example) "O" = true /\
   fst (transform [["O"]] (Some 3) None false labeling_example) =
     Raise (KeyError_str "[UNK]")) /\
  (allow_unk strict_example = false /\
   fst (transform [["q"]; ["a"]] (Some 3) None false strict_example) =
     Raise (KeyError_str "q") /\
   fst (transform [["a"]; ["b"; "q"]] (Some 3) None false strict_example) =
     Raise (KeyError_str "q")).
Proof.
  repeat split; reflexivity.
Qed.

(** * Further properties of the module *)

(** ** build_vocab_generator *)

Lemma built_vocab_keys self corpus :
  Dict.keys (built_vocab self corpus) =
  Dict.keys (_initial_vocab_dic self) ++
  admitted (min_count self) (_initial_vocab_dic self)
    (sorted_reverse snd
       (fold_left count_token
          (counted_stream (build_vocab_from_labels self) corpus) Dict.empty)).
Proof.
  unfold built_vocab, Dict.keys. rewrite map_app.
  fold (Dict.keys (assign_from (len (_initial_vocab_dic self))
    (admitted (min_count self) (_initial_vocab_dic self)
       (sorted_reverse snd (fold_left count_token
          (counted_stream (build_vocab_from_labels self) corpus)
          Dict.empty))))).
  now rewrite assign_from_keys.
Qed.

(** X1.  Membership after a first build, for every threshold: a token is
    in the vocabulary exactly when it is in the seed, or occurs in the
    counted stream at least [min_count] times. *)
Theorem vocabulary_membership self corpus token :
  vocab2idx self = Dict.empty ->
  exists self',
    build_vocab_generator (Some corpus) self = (Ok tt, self') /\
    (Dict.contains (vocab2idx self') token = true <->
     In token (Dict.keys (_initial_vocab_dic self)) \/
     (In token (counted_stream (build_vocab_from_labels self) corpus) /\
      min_count self <=
        occurrences token
          (counted_stream (build_vocab_from_labels self) corpus))).
Proof.
  intros Hempty. eexists. split; [now apply build_vocab_generator_fresh|].
  cbn [vocab2idx set_vocab].
  rewrite contains_true, built_vocab_keys, in_app_iff, admitted_sorted_In.
  destruct (in_dec string_dec token (Dict.keys (_initial_vocab_dic self)));
    tauto.
Qed.

(** X2.  The seed is kept: after a first build the vocabulary is the seed
    followed by tokens that are not in the seed, so a reserved token keeps
    its index also when the corpus contains it. *)
Theorem seed_is_kept self corpus :
  vocab2idx self = Dict.empty ->
  exists self' learned,
    build_vocab_generator (Some corpus) self = (Ok tt, self') /\
    vocab2idx self' = _initial_vocab_dic self ++ learned /\
    (forall token, In token (Dict.keys learned) ->
                   ~ In token (Dict.keys (_initial_vocab_dic self))) /\
    (forall token idx,
        Dict.get (_initial_vocab_dic self) token = Some idx ->
        Dict.get (vocab2idx self') token = Some idx).
Proof.
  intros Hempty. eexists. eexists. split; [now apply build_vocab_generator_fresh|].
  cbn [vocab2idx set_vocab]. unfold built_vocab. split; [reflexivity|]. split.
  - intros token Hin. rewrite assign_from_keys in Hin.
    apply admitted_sorted_In in Hin. tauto.
  - intros token idx Hget. rewrite get_app. now rewrite Hget.
Qed.

(** X3.  Nothing to learn: when every counted token is in the seed or
    occurs fewer than [min_count] times (so for an empty corpus), a first
    build leaves exactly the seed. *)
Theorem nothing_learned self corpus :
  vocab2idx self = Dict.empty ->
  (forall token,
      In token (counted_stream (build_vocab_from_labels self) corpus) ->
      In token (Dict.keys (_initial_vocab_dic self)) \/
      occurrences token (counted_stream (build_vocab_from_labels self) corpus)
        < min_count self) ->
  exists self',
    build_vocab_generator (Some corpus) self = (Ok tt, self') /\
    vocab2idx self' = _initial_vocab_dic self.
Proof.
  intros Hempty Hnone. eexists. split; [now apply build_vocab_generator_fresh|].
  cbn [vocab2idx set_vocab]. unfold built_vocab.
  pose proof (admitted_sorted_In self corpus) as Hin.
  destruct (admitted _ _ _) as [|token tokens].
  - apply app_nil_r.
  - exfalso. destruct (proj1 (Hin token) (or_introl eq_refl)) as (Hs & Hfresh & Hmin).
    destruct (Hnone token Hs); [tauto|lia].
Qed.

(** X4.  Building twice: whenever a build returns, a second build with the
    same argument returns the instance as the first one left it, also when
    the first one left the vocabulary empty. *)
Theorem build_twice generator self self1 :
  build_vocab_generator generator self = (Ok tt, self1) ->
  build_vocab_generator generator self1 = (Ok tt, self1).
Proof.
  intros Hfirst.
  destruct (vocab2idx self) as [|item rest] eqn:Hv.
  - destruct generator as [corpus|].
    + rewrite build_vocab_generator_fresh in Hfirst by exact Hv.
      injection Hfirst as <-.
      destruct (built_vocab self corpus) as [|item rest] eqn:Hbuilt.
      * rewrite build_vocab_generator_fresh by reflexivity.
        assert (Hseed : _initial_vocab_dic self = []).
        { unfold built_vocab in Hbuilt.
          now apply app_eq_nil in Hbuilt as [Hseed _]. }
        assert (Hagain : built_vocab (set_vocab self [] (Dict.of_pairs (map swap []))) corpus = []).
        { transitivity (built_vocab self corpus); [|exact Hbuilt].
          unfold built_vocab. cbn [_initial_vocab_dic set_vocab min_count
            build_vocab_from_labels]. now rewrite Hseed. }
        rewrite Hagain. reflexivity.
      * apply build_vocab_generator_built. discriminate.
    + unfold build_vocab_generator in Hfirst. rewrite Hv in Hfirst.
      discriminate.
  - assert (Hne : vocab2idx self <> Dict.empty) by (rewrite Hv; discriminate).
    rewrite build_vocab_generator_built in Hfirst by exact Hne.
    injection Hfirst as <-. now apply build_vocab_generator_built.
Qed.

(** X5.  The counted side: with [build_vocab_from_labels] the sentences of
    the corpus play no role, and without it the labels play none; neither do
    the boundaries between samples. *)
Theorem counted_side_only self corpus1 corpus2 :
  List.concat (map (if build_vocab_from_labels self
                    then @snd (list string) (list string)
                    else @fst (list string) (list string)) corpus1) =
  List.concat (map (if build_vocab_from_labels self
                    then @snd (list string) (list string)
                    else @fst (list string) (list string)) corpus2) ->
  build_vocab_generator (Some corpus1) self =
  build_vocab_generator (Some corpus2) self.
Proof.
  intros Hsame.
  assert (Hstream : counted_stream (build_vocab_from_labels self) corpus1 =
                    counted_stream (build_vocab_from_labels self) corpus2).
  { unfold counted_stream. destruct (build_vocab_from_labels self); exact Hsame. }
  unfold build_vocab_generator. destruct (Dict.is_empty (vocab2idx self)); auto.
  rewrite !fold_count_sample. now rewrite Hstream.
Qed.

(** ** Indices in every mode *)

Lemma index_range_length n : List.length (index_range n) = n.
Proof. unfold index_range. now rewrite length_map, length_seq. Qed.

Lemma index_range_In n idx : In idx (index_range n) <-> 0 <= idx < Z.of_nat n.
Proof.
  unfold index_range. rewrite in_map_iff. split.
  - intros (k & <- & Hk). apply in_seq in Hk. lia.
  - intros Hidx. exists (Z.to_nat idx). split; [lia|]. apply in_seq. lia.
Qed.

Lemma assign_from_values_seq k tokens :
  Dict.values (assign_from (Z.of_nat k) tokens) =
  map Z.of_nat (seq k (List.length tokens)).
Proof.
  revert k. induction tokens as [|t tokens IH]; intros k; simpl; auto.
  f_equal. replace (Z.of_nat k + 1) with (Z.of_nat (S k)) by lia. apply IH.
Qed.

Lemma index_range_app (seed : Dict.t string Z) tokens :
  Dict.values seed = index_range (List.length seed) ->
  Dict.values (seed ++ assign_from (len seed) tokens) =
  index_range (List.length (seed ++ assign_from (len seed) tokens)).
Proof.
  intros Hseed. unfold Dict.values. rewrite map_app.
  fold (Dict.values seed) (Dict.values (assign_from (len seed) tokens)).
  unfold len at 1. rewrite assign_from_values_seq, Hseed.
  rewrite length_app.
  replace (List.length (assign_from (len seed) tokens))
    with (List.length tokens)
    by (rewrite <- (assign_from_keys (len seed) tokens) at 1;
        unfold Dict.keys; now rewrite length_map).
  unfold index_range. now rewrite seq_app, map_app.
Qed.

Lemma index_range_nodup n : NoDup (index_range n).
Proof.
  unfold index_range. induction n as [|n IH].
  - constructor.
  - rewrite seq_S, map_app. simpl. apply NoDup_app; auto.
    + repeat constructor. simpl. tauto.
    + intros idx Hin [<-|[]]. apply in_map_iff in Hin as (k & E & Hk).
      apply in_seq in Hk. lia.
Qed.

(** The seed that the constructor prepares is a dict whose values count
    from zero. *)
Lemma init_seed_counts self0 mode threshold from_labels :
  (mode = "text" ->
   NoDup [token_pad self0; token_unk self0; token_bos self0; token_eos self0]) ->
  NoDup (Dict.keys (_initial_vocab_dic (__init__ self0 mode threshold from_labels))) /\
  Dict.values (_initial_vocab_dic (__init__ self0 mode threshold from_labels)) =
  index_range
    (List.length (_initial_vocab_dic (__init__ self0 mode threshold from_labels))).
Proof.
  intros Hnd. unfold __init__. cbn [_initial_vocab_dic].
  destruct (String.eqb_spec mode "text") as [E|_].
  - rewrite of_pairs_nodup by exact (Hnd E). split; [exact (Hnd E)|reflexivity].
  - destruct (String.eqb mode "labeling").
    + split; [|reflexivity]. repeat constructor. simpl. tauto.
    + split; [constructor|reflexivity].
Qed.

Lemma built_vocab_wellformed self corpus :
  NoDup (Dict.keys (_initial_vocab_dic self)) ->
  Dict.values (_initial_vocab_dic self) =
    index_range (List.length (_initial_vocab_dic self)) ->
  NoDup (Dict.keys (built_vocab self corpus)) /\
  Dict.values (built_vocab self corpus) =
    index_range (List.length (built_vocab self corpus)).
Proof.
  intros Hkeys Hvals. split.
  - rewrite built_vocab_keys. apply NoDup_app; auto.
    + apply admitted_sorted_nodup.
    + intros token Hseed Hin. apply admitted_sorted_In in Hin. tauto.
  - unfold built_vocab. now apply index_range_app.
Qed.

(** X6.  Indices in every mode: after a first build of a processor
    constructed in mode "text" (with pairwise different reserved tokens),
    "labeling" or any other, the i-th entry of the vocabulary has index i,
    counting from zero, and [idx2vocab] lists the same entries with key and
    value swapped; in mode "labeling" PAD has index 0. *)
Theorem indices_count_from_zero self0 mode threshold from_labels corpus :
  (mode = "text" ->
   NoDup [token_pad self0; token_unk self0; token_bos self0; token_eos self0]) ->
  vocab2idx self0 = Dict.empty ->
  exists self',
    build_vocab_generator (Some corpus)
      (__init__ self0 mode threshold from_labels) = (Ok tt, self') /\
    NoDup (Dict.keys (vocab2idx self')) /\
    Dict.values (vocab2idx self') =
      index_range (List.length (vocab2idx self')) /\
    idx2vocab self' = map swap (vocab2idx self') /\
    (mode = "labeling" ->
     Dict.get (vocab2idx self') (token_pad self0) = Some 0).
Proof.
  intros Hnd Hempty.
  set (self := __init__ self0 mode threshold from_labels).
  destruct (@init_seed_counts self0 mode threshold from_labels Hnd)
    as [Hkeys Hvals]. fold self in Hkeys, Hvals.
  destruct (@built_vocab_wellformed self corpus Hkeys Hvals) as [Hk Hv].
  exists (set_vocab self (built_vocab self corpus)
            (Dict.of_pairs (map swap (built_vocab self corpus)))).
  split; [now apply build_vocab_generator_fresh|].
  cbn [vocab2idx idx2vocab set_vocab]. repeat split; auto.
  - apply of_pairs_nodup. rewrite swap_keys, Hv. apply index_range_nodup.
  - intros ->. unfold built_vocab. rewrite get_app.
    unfold self, __init__. cbn [_initial_vocab_dic]. simpl.
    now rewrite String.eqb_refl.
Qed.

(** ** transform: shapes, errors and truncation *)

(** X7.  Padding shape: with the fallback on, UNK in the vocabulary and
    [int32] indices, a call with a non-negative [seq_length] returns, for
    every batch and whatever [max_position] is, an array of shape
    (batch size, seq_length) whose rows all have that length and hold
    [int32] entries, and leaves the instance as it is. *)
Theorem padding_shape samples n max_position segment self :
  0 <= n ->
  indices_fit self ->
  allow_unk self = true ->
  Dict.contains (vocab2idx self) (token_unk self) = true ->
  exists out,
    transform samples (Some n) max_position segment self = (Ok out, self) /\
    shape (token_ids_of out) = (len samples, n) /\
    len (rows (token_ids_of out)) = len samples /\
    Forall (fun row => len row = n /\ Forall int32 row)
           (rows (token_ids_of out)).
Proof.
  intros Hn Hfit Hallow Hunk. unfold Dict.contains in Hunk.
  destruct (Dict.get (vocab2idx self) (token_unk self)) as [unk_index|] eqn:E;
    [|discriminate].
  destruct (@transform_numerized samples (Some n) max_position segment self n
              self _ eq_refl Hn
              (numerize_fallback_batch self samples Hallow E))
    as (out & Hout & Hids).
  exists out. split; auto. rewrite Hids. cbn [shape rows].
  unfold len at 1 3 4. rewrite !length_map. repeat split.
  apply Forall_forall. intros row Hrow.
  apply in_map_iff in Hrow as (r & <- & Hr). split.
  - now apply pad_post_len.
  - apply in_map_iff in Hr as (seq & <- & _).
    apply pad_post_fits, lookup_row_fits; auto.
    exact (@get_fits self (token_unk self) unk_index Hfit E).
Qed.

(** The numerization of a batch succeeds with the fallback on and UNK
    known, and without the fallback when no wrapped token is missing. *)
Lemma numerize_batch_ok self samples :
  indices_fit self ->
  (allow_unk self = true /\
   Dict.contains (vocab2idx self) (token_unk self) = true) \/
  (allow_unk self = false /\
   first_missing (vocab2idx self)
     (List.concat (map (wrapped self) samples)) = None) ->
  exists numerized_samples,
    map_result (numerize self) samples = Ok numerized_samples /\
    len numerized_samples = len samples /\
    Forall (Forall int32) numerized_samples.
Proof.
  intros Hfit [[Hallow Hunk]|[Hstrict Hnone]].
  - unfold Dict.contains in Hunk.
    destruct (Dict.get (vocab2idx self) (token_unk self)) as [unk_index|] eqn:E;
      [|discriminate].
    eexists. split; [exact (numerize_fallback_batch self samples Hallow E)|].
    split; [unfold len; now rewrite length_map|].
    apply Forall_forall. intros row Hrow.
    apply in_map_iff in Hrow as (seq & <- & _).
    apply lookup_row_fits; auto.
    exact (@get_fits self (token_unk self) unk_index Hfit E).
  - pose proof (numerize_strict_batch self samples Hstrict) as Hnum.
    rewrite Hnone in Hnum.
    eexists. split; [exact (Hnum 0)|].
    split; [unfold len; now rewrite length_map|].
    apply Forall_forall. intros row Hrow.
    apply in_map_iff in Hrow as (seq & <- & _).
    apply lookup_row_fits; auto using zero_fits.
Qed.

(** X20.  The inferred width: on a batch whose numerization succeeds
    (fallback on and UNK known, or fallback off and no wrapped token
    missing), with [int32] indices and a [max_position] that is not
    negative, a call without [seq_length] returns an array of shape
    (batch size, width) with rows of that length and [int32] entries, where
    the width is the greatest length of a sample as passed in, before BOS
    and EOS are affixed, cut to [max_position] when that is supplied, is not
    zero and is exceeded. *)
Theorem inferred_width samples max_position segment self longest :
  In longest (map (@len string) samples) ->
  (forall seq, In seq samples -> len seq <= longest) ->
  (forall m, max_position = Some m -> 0 <= m) ->
  indices_fit self ->
  (allow_unk self = true /\
   Dict.contains (vocab2idx self) (token_unk self) = true) \/
  (allow_unk self = false /\
   first_missing (vocab2idx self)
     (List.concat (map (wrapped self) samples)) = None) ->
  exists out self',
    transform samples None max_position segment self = (Ok out, self') /\
    shape (token_ids_of out) =
      (len samples, inferred_length longest max_position) /\
    len (rows (token_ids_of out)) = len samples /\
    Forall (fun row => len row = inferred_length longest max_position /\
                       Forall int32 row)
           (rows (token_ids_of out)).
Proof.
  intros Hin Hmax Hpos Hfit Hmode.
  assert (Hwidth : 0 <= inferred_length longest max_position).
  { assert (0 <= longest).
    { apply in_map_iff in Hin as (seq & <- & _). unfold len. lia. }
    unfold inferred_length. destruct max_position as [m|]; auto.
    specialize (Hpos m eq_refl). destruct (m =? 0); lia. }
  destruct (@numerize_batch_ok self samples Hfit Hmode)
    as (numerized_samples & Hnum & Hlen & Hints).
  destruct (@transform_numerized samples None max_position segment self
              (inferred_length longest max_position)
              (set_showed_seq_len_warning self true) numerized_samples
              (@resolve_seq_length_inferred samples max_position self longest
                 Hin Hmax)
              Hwidth Hnum)
    as (out & Hout & Hids).
  exists out, (set_showed_seq_len_warning self true).
  split; auto. rewrite Hids. cbn [shape rows]. rewrite Hlen.
  split; [reflexivity|]. split.
  - unfold len in *. now rewrite length_map.
  - apply Forall_forall. intros row Hrow.
    apply in_map_iff in Hrow as (r & <- & Hr). split.
    + now apply pad_post_len.
    + apply pad_post_fits. rewrite Forall_forall in Hints. auto.
Qed.

Lemma pad_sequences_inv sequences maxlen token_ids :
  pad_sequences sequences maxlen = Ok token_ids ->
  0 <= maxlen /\
  token_ids = mk_ndarray (len sequences, maxlen) (map (pad_post maxlen) sequences).
Proof.
  unfold pad_sequences. destruct (Z.ltb_spec maxlen 0); [discriminate|].
  intros E. injection E as <-. auto.
Qed.

Lemma transform_ok_inv samples seq_length max_position segment self out self' :
  transform samples seq_length max_position segment self = (Ok out, self') ->
  exists n numerized_samples,
    0 <= n /\
    token_ids_of out =
    mk_ndarray (len numerized_samples, n) (map (pad_post n) numerized_samples).
Proof.
  rewrite transform_unfold.
  destruct (resolve_seq_length _ _ _ _) as [[n|e] self1]; [|discriminate].
  destruct (map_result _ _) as [numerized_samples|e]; [|discriminate].
  destruct (pad_sequences _ _) as [token_ids|e] eqn:Hpad; [|discriminate].
  apply pad_sequences_inv in Hpad as [Hn ->].
  intros E. injection E as <- <-. exists n, numerized_samples.
  split; auto. now destruct segment.
Qed.

(** X8.  Segment output: a call with [segment=True] fails exactly when the
    call with [segment=False] does, with the same exception; otherwise it
    returns the same token ids and the same instance, together with an
    array of the same shape, with as many rows of the same length, in which
    every entry is zero. *)
Theorem segment_output samples seq_length max_position self :
  transform samples seq_length max_position true self =
  match transform samples seq_length max_position false self with
  | (Ok out, self') =>
      (Ok (TokenAndSegmentIds (token_ids_of out)
             (np_zeros (shape (token_ids_of out)))), self')
  | (Raise e, self') => (Raise e, self')
  end /\
  forall out self',
    transform samples seq_length max_position false self = (Ok out, self') ->
    shape (np_zeros (shape (token_ids_of out))) = shape (token_ids_of out) /\
    len (rows (np_zeros (shape (token_ids_of out)))) =
      len (rows (token_ids_of out)) /\
    Forall (fun row => len row = snd (shape (token_ids_of out)) /\
                       Forall (fun entry => entry = 0) row)
           (rows (np_zeros (shape (token_ids_of out)))).
Proof.
  split.
  - rewrite !transform_unfold.
    destruct (resolve_seq_length _ _ _ _) as [[n|e] self1]; auto.
    destruct (map_result _ _); auto.
    destruct (pad_sequences _ _); auto.
  - intros out self' Hout.
    apply transform_ok_inv in Hout as (n & numerized_samples & Hn & ->).
    cbn [shape rows np_zeros fst snd]. split; [reflexivity|]. split.
    + unfold len. now rewrite repeat_length, length_map, Nat2Z.id.
    + apply Forall_forall. intros row Hrow. apply repeat_spec in Hrow as ->.
      split.
      * unfold len. rewrite repeat_length. lia.
      * apply Forall_forall. intros entry Hentry.
        now apply repeat_spec in Hentry.
Qed.

(** X9.  Empty batch: without [seq_length] the call raises [ValueError]
    (the maximum of no lengths) before it touches the warning flag; with a
    non-negative [seq_length] it returns an array of shape (0, seq_length)
    without rows, whatever the vocabulary holds. *)
Theorem empty_batch max_position segment self :
  (exists msg,
     transform [] None max_position segment self =
     (Raise (ValueError msg), self)) /\
  (forall n, 0 <= n ->
     exists out,
       transform [] (Some n) max_position segment self = (Ok out, self) /\
       token_ids_of out = mk_ndarray (0, n) []).
Proof.
  split.
  - eexists. reflexivity.
  - intros n Hn. rewrite transform_unfold. cbn [resolve_seq_length ret map_result].
    rewrite pad_sequences_ok by exact Hn.
    destruct segment; eexists; split; reflexivity.
Qed.

(** X10.  No UNK, no fallback: with [allow_unk] true and a vocabulary that
    lacks the UNK token, a call on a non-empty batch raises [KeyError] for
    the UNK token once the width is resolved, whatever the samples hold. *)
Theorem fallback_needs_unk samples seq_length max_position segment self n self1 :
  resolve_seq_length samples seq_length max_position self = (Ok n, self1) ->
  samples <> [] ->
  allow_unk self = true ->
  Dict.contains (vocab2idx self) (token_unk self) = false ->
  transform samples seq_length max_position segment self =
  (Raise (KeyError_str (token_unk self)), self1).
Proof.
  intros Hres Hne Hallow Hunk.
  rewrite transform_unfold, Hres.
  rewrite (resolve_seq_length_numerize _ _ _ _ Hres).
  destruct samples as [|seq samples]; [congruence|].
  cbn [map_result]. unfold numerize at 1, getitem_str. rewrite Hallow.
  unfold Dict.contains in Hunk.
  destruct (Dict.get (vocab2idx self) (token_unk self)); [discriminate|].
  reflexivity.
Qed.

Lemma pad_post_longest (f : string -> Z) self seq :
  1 <= len seq ->
  pad_post (len seq) (map f (wrapped self seq)) =
  map f (token_bos self :: removelast seq).
Proof.
  intros Hlen. unfold pad_post, len in *. rewrite Nat2Z.id.
  rewrite length_firstn, length_map.
  assert (Hw : List.length (wrapped self seq) = S (S (List.length seq))).
  { unfold wrapped. simpl. rewrite length_app. simpl. lia. }
  rewrite Hw. replace (_ - _)%nat with O by lia. rewrite app_nil_r.
  rewrite firstn_map. f_equal. unfold wrapped.
  destruct (List.length seq) as [|k] eqn:Hk; [lia|].
  cbn [app firstn]. f_equal.
  rewrite firstn_app, Hk.
  replace (k - S k)%nat with O by lia. simpl firstn at 2. rewrite app_nil_r.
  rewrite removelast_firstn_len, Hk. reflexivity.
Qed.

Lemma Forall2_map_right A B (P : A -> B -> Prop) (g : A -> B) l :
  (forall x, In x l -> P x (g x)) -> Forall2 P l (map g l).
Proof.
  induction l as [|x l IH]; simpl; intros Hp; constructor; auto.
Qed.

(** X11.  The inferred length cuts the longest samples: without
    [seq_length] and [max_position], with [int32] indices, the row of every
    sample of the greatest length holds the indices of BOS and of all its
    tokens but the last; the last token and EOS are cut.  The entries of
    the array are [int32] values. *)
Theorem inferred_length_truncates samples segment self longest unk_index :
  In longest (map (@len string) samples) ->
  (forall seq, In seq samples -> len seq <= longest) ->
  1 <= longest ->
  indices_fit self ->
  allow_unk self = true ->
  Dict.get (vocab2idx self) (token_unk self) = Some unk_index ->
  exists out self',
    transform samples None None segment self = (Ok out, self') /\
    Forall (Forall int32) (rows (token_ids_of out)) /\
    Forall2
      (fun seq row =>
         len seq = longest ->
         row = map (fun token =>
                      Dict.get_default (vocab2idx self) token unk_index)
                   (token_bos self :: removelast seq))
      samples (rows (token_ids_of out)).
Proof.
  intros Hin Hmax Hlong Hfit Hallow Hunk.
  destruct (@transform_numerized samples None None segment self longest
              (set_showed_seq_len_warning self true) _
              (@resolve_seq_length_inferred samples None self longest Hin Hmax)
              ltac:(lia)
              (numerize_fallback_batch self samples Hallow Hunk))
    as (out & Hout & Hids).
  exists out, (set_showed_seq_len_warning self true). split; auto.
  rewrite Hids. cbn [rows]. rewrite map_map. split.
  - apply Forall_forall. intros row Hrow.
    apply in_map_iff in Hrow as (seq & <- & _).
    apply pad_post_fits, lookup_row_fits; auto.
    exact (@get_fits self (token_unk self) unk_index Hfit Hunk).
  - apply Forall2_map_right. intros seq _ <-. now apply pad_post_longest.
Qed.

(** ** inverse_transform: errors and results *)

(** Decoding one row: the first index without a token is the key of the
    [KeyError]. *)
Lemma decode_row inverse row :
  match first_undecodable inverse row with
  | Some idx =>
      map_result (fun idx => getitem_int inverse idx) row
      = Raise (KeyError_int idx)
  | None =>
      forall default,
        map_result (fun idx => getitem_int inverse idx) row =
        Ok (map (fun idx => Dict.get_default inverse idx default) row)
  end.
Proof.
  unfold first_undecodable.
  induction row as [|i row IH]; simpl.
  - reflexivity.
  - unfold getitem_int at 1 3, Dict.contains, Dict.get_default at 1.
    destruct (Dict.get inverse i) as [token|]; simpl; auto.
    revert IH. destruct (find _ row); intros IH.
    + now rewrite IH.
    + intros default. now rewrite (IH default).
Qed.

Lemma list_getitem_app A (pre : list A) x post :
  list_getitem (pre ++ x :: post) (len pre) = Ok x.
Proof.
  unfold list_getitem, len. destruct (Z.ltb_spec (Z.of_nat (List.length pre)) 0);
    [lia|].
  rewrite Nat2Z.id, nth_error_app2, Nat.sub_diag by lia. reflexivity.
Qed.

Lemma list_getitem_beyond A (l : list A) i :
  len l <= i -> exists msg, list_getitem l i = Raise (IndexError msg).
Proof.
  intros Hle. unfold list_getitem, len in *.
  destruct (Z.ltb_spec i 0); [lia|].
  destruct (nth_error l (Z.to_nat i)) eqn:E; [|eauto].
  assert (Hsome : nth_error l (Z.to_nat i) <> None) by congruence.
  apply nth_error_Some in Hsome. lia.
Qed.

(** [l[:-1]] drops the last element. *)
Lemma slice_drop_last A (l : list A) : py_slice l 0 (-1) = removelast l.
Proof.
  unfold py_slice, slice_bound, len.
  change (-1 <? 0) with true. change (0 <? 0) with false. cbv iota.
  rewrite Z.min_l by lia. simpl skipn.
  rewrite removelast_firstn_len. f_equal. lia.
Qed.

(** [l[1:stop]] for a non-negative [stop]: the entries 1 .. stop-1. *)
Lemma slice_from_one A (l : list A) stop :
  0 <= stop -> py_slice l 1 stop = firstn (Z.to_nat (stop - 1)) (tl l).
Proof.
  intros Hstop. unfold py_slice, slice_bound, len.
  change (1 <? 0) with false. destruct (Z.ltb_spec stop 0); [lia|]. cbv iota.
  destruct l as [|x l]; simpl List.length.
  - simpl. now rewrite !firstn_nil.
  - rewrite (Z.min_l 1) by lia. simpl skipn. simpl tl.
    destruct (Z.min_spec stop (Z.of_nat (S (List.length l)))) as [[Hlt ->]|[Hge ->]];
      auto.
    rewrite !firstn_all2 by lia. reflexivity.
Qed.

(** The loop of [inverse_transform] without [lengths]. *)
Lemma inverse_loop_none self labels k :
  match first_undecodable (idx2vocab self) (List.concat labels) with
  | Some idx =>
      map_result (inverse_one self None) (enumerate_from k labels)
      = Raise (KeyError_int idx)
  | None =>
      forall default,
        map_result (inverse_one self None) (enumerate_from k labels) =
        Ok (map (fun row =>
                   removelast
                     (map (fun idx =>
                             Dict.get_default (idx2vocab self) idx default)
                          row)) labels)
  end.
Proof.
  unfold first_undecodable. revert k.
  induction labels as [|row labels IH]; intros k.
  - simpl. reflexivity.
  - cbn [List.concat enumerate_from map_result map]. rewrite find_app.
    unfold inverse_one at 1 3. cbn [fst snd].
    pose proof (decode_row (idx2vocab self) row) as Hrow.
    unfold first_undecodable in Hrow. revert Hrow.
    destruct (find _ row); intros Hrow.
    + now rewrite Hrow.
    + specialize (IH (k + 1)). revert IH.
      destruct (find _ (List.concat labels)); intros IH.
      * rewrite (Hrow ""). cbn [rbind]. now rewrite IH.
      * intros default. rewrite (Hrow default). cbn [rbind].
        rewrite (IH default). cbn [rbind]. now rewrite slice_drop_last.
Qed.

(** The loop of [inverse_transform] with [lengths], row [k] onwards. *)
Lemma inverse_loop_some self labels pre stops :
  (List.length labels <= List.length stops)%nat ->
  match first_undecodable (idx2vocab self) (List.concat labels) with
  | Some idx =>
      map_result (inverse_one self (Some (pre ++ stops)))
                 (enumerate_from (len pre) labels)
      = Raise (KeyError_int idx)
  | None =>
      forall default,
        map_result (inverse_one self (Some (pre ++ stops)))
                   (enumerate_from (len pre) labels) =
        Ok (map (fun item =>
                   py_slice
                     (map (fun idx =>
                             Dict.get_default (idx2vocab self) idx default)
                          (fst item)) 1 (snd item))
                (combine labels stops))
  end.
Proof.
  unfold first_undecodable. revert pre stops.
  induction labels as [|row labels IH]; intros pre stops Hlen.
  - simpl. reflexivity.
  - destruct stops as [|stop stops]; [simpl in Hlen; lia|].
    cbn [List.concat enumerate_from map_result map combine]. rewrite find_app.
    unfold inverse_one at 1 3. cbn [fst snd].
    rewrite list_getitem_app.
    pose proof (decode_row (idx2vocab self) row) as Hrow.
    unfold first_undecodable in Hrow. revert Hrow.
    destruct (find _ row); intros Hrow.
    + now rewrite Hrow.
    + specialize (IH (pre ++ [stop]) stops).
      rewrite <- app_assoc, len_app in IH. cbn [app] in IH.
      change (len [stop]) with 1 in IH.
      assert (Hlen' : (List.length labels <= List.length stops)%nat)
        by (simpl in Hlen; lia).
      specialize (IH Hlen'). revert IH.
      destruct (find _ (List.concat labels)); intros IH.
      * rewrite (Hrow ""). cbn [rbind]. now rewrite IH.
      * intros default. rewrite (Hrow default). cbn [rbind].
        now rewrite (IH default).
Qed.

Lemma inverse_transform_unfold labels lengths self :
  inverse_transform labels lengths self =
  (map_result (inverse_one self lengths) (enumerate_from 0 labels), self).
Proof. reflexivity. Qed.

(** X12.  Missing index: when some index of the batch has no token, and
    [lengths], if given, has an entry for every row, the call raises
    [KeyError] with the first such index, rows taken in order, and leaves
    the instance as it is. *)
Theorem inverse_missing_index labels lengths self idx :
  match lengths with
  | Some stops => len labels <= len stops
  | None => True
  end ->
  first_undecodable (idx2vocab self) (List.concat labels) = Some idx ->
  inverse_transform labels lengths self = (Raise (KeyError_int idx), self).
Proof.
  intros Hlen Hfirst. rewrite inverse_transform_unfold. f_equal.
  destruct lengths as [stops|].
  - pose proof (@inverse_loop_some self labels [] stops) as Hloop.
    rewrite Hfirst in Hloop. apply Hloop. unfold len in Hlen. lia.
  - pose proof (inverse_loop_none self labels 0) as Hloop.
    now rewrite Hfirst in Hloop.
Qed.

(** X13.  Without [lengths]: when every index has a token, each row is
    decoded and loses its last element only; the first element stays, and
    an empty row stays empty. *)
Theorem inverse_without_lengths labels self default :
  first_undecodable (idx2vocab self) (List.concat labels) = None ->
  inverse_transform labels None self =
  (Ok (map (fun row =>
              removelast
                (map (fun idx => Dict.get_default (idx2vocab self) idx default)
                     row)) labels), self).
Proof.
  intros Hnone. rewrite inverse_transform_unfold. f_equal.
  pose proof (inverse_loop_none self labels 0) as Hloop.
  rewrite Hnone in Hloop. apply Hloop.
Qed.

(** X14.  With [lengths]: when every index has a token and [lengths] has a
    non-negative entry for every row, row i is decoded and cut to its
    entries 1 .. lengths[i]-1. *)
Theorem inverse_with_lengths labels stops self default :
  first_undecodable (idx2vocab self) (List.concat labels) = None ->
  len labels <= len stops ->
  Forall (fun stop => 0 <= stop) stops ->
  inverse_transform labels (Some stops) self =
  (Ok (map (fun item =>
              firstn (Z.to_nat (snd item - 1))
                (tl (map (fun idx =>
                            Dict.get_default (idx2vocab self) idx default)
                         (fst item))))
           (combine labels stops)), self).
Proof.
  intros Hnone Hlen Hstops. rewrite inverse_transform_unfold. f_equal.
  pose proof (@inverse_loop_some self labels [] stops) as Hloop.
  rewrite Hnone in Hloop. cbn [app] in Hloop.
  change (len (@nil Z)) with 0 in Hloop.
  rewrite (Hloop ltac:(unfold len in Hlen; lia) default).
  f_equal. apply map_ext_in. intros [row stop] Hin. cbn [fst snd].
  apply slice_from_one. rewrite Forall_forall in Hstops. apply Hstops.
  now apply in_combine_r in Hin.
Qed.

Lemma inverse_loop_short self labels pre stops :
  first_undecodable (idx2vocab self) (List.concat labels) = None ->
  (List.length stops < List.length labels)%nat ->
  exists msg,
    map_result (inverse_one self (Some (pre ++ stops)))
               (enumerate_from (len pre) labels)
    = Raise (IndexError msg).
Proof.
  unfold first_undecodable. revert pre stops.
  induction labels as [|row labels IH]; intros pre stops Hnone Hlen.
  - simpl in Hlen. lia.
  - cbn [List.concat] in Hnone. rewrite find_app in Hnone.
    pose proof (decode_row (idx2vocab self) row) as Hrow.
    unfold first_undecodable in Hrow. revert Hnone Hrow.
    destruct (find _ row); [discriminate|]. intros Hnone Hrow.
    cbn [enumerate_from map_result]. unfold inverse_one at 1. cbn [fst snd].
    rewrite (Hrow ""). cbn [rbind].
    destruct stops as [|stop stops].
    + rewrite app_nil_r.
      destruct (@list_getitem_beyond Z pre (len pre) ltac:(lia)) as (msg & ->).
      exists msg. reflexivity.
    + rewrite list_getitem_app. cbn [rbind].
      specialize (IH (pre ++ [stop]) stops Hnone).
      rewrite <- app_assoc, len_app in IH. cbn [app] in IH.
      change (len [stop]) with 1 in IH.
      destruct IH as (msg & ->); [simpl in Hlen; lia|].
      exists msg. reflexivity.
Qed.

(** X15.  Too few lengths: when every index has a token but [lengths] has
    fewer entries than there are rows, the call raises [IndexError] and
    returns no row at all. *)
Theorem inverse_lengths_too_short labels stops self :
  first_undecodable (idx2vocab self) (List.concat labels) = None ->
  len stops < len labels ->
  exists msg,
    inverse_transform labels (Some stops) self = (Raise (IndexError msg), self).
Proof.
  intros Hnone Hlen. rewrite inverse_transform_unfold.
  destruct (@inverse_loop_short self labels [] stops Hnone
              ltac:(unfold len in Hlen; lia)) as (msg & Hmsg).
  exists msg. f_equal. exact Hmsg.
Qed.

(** ** Encoding and decoding together *)

(** A row that is wide enough for BOS and the tokens starts with them. *)
Lemma pad_post_prefix maxlen x (tokens rest : list Z) :
  len tokens + 1 <= maxlen ->
  exists tail, pad_post maxlen (x :: tokens ++ rest) = x :: tokens ++ tail.
Proof.
  intros Hlen. unfold pad_post, len in *.
  destruct (Z.to_nat maxlen) as [|m] eqn:Hm; [lia|].
  cbn [firstn]. rewrite firstn_app.
  rewrite (firstn_all2 (n := m) tokens) by lia.
  eexists. cbn [app]. rewrite <- app_assoc. reflexivity.
Qed.

Lemma combine_map_same A B C (g : A -> B) (h : A -> C) l :
  combine (map g l) (map h l) = map (fun x => (g x, h x)) l.
Proof. induction l; simpl; congruence. Qed.

Section RoundTrip.
Variable self : SequenceProcessor.
Variable unk_index : Z.
Hypothesis unk_known :
  Dict.get (vocab2idx self) (token_unk self) = Some unk_index.
Hypothesis inverse_known :
  forall token idx,
    Dict.get (vocab2idx self) token = Some idx ->
    Dict.get (idx2vocab self) idx = Some token.

(** The index that the fallback gives to a token decodes to the token, or
    to UNK when the vocabulary lacks the token. *)
Lemma fallback_decodes token :
  Dict.get (idx2vocab self)
           (Dict.get_default (vocab2idx self) token unk_index) =
  Some (known_or_unk self token).
Proof.
  unfold Dict.get_default, known_or_unk, Dict.contains.
  destruct (Dict.get (vocab2idx self) token) as [idx|] eqn:E; auto.
Qed.

Lemma fallback_decodes_default token default :
  Dict.get_default (idx2vocab self)
    (Dict.get_default (vocab2idx self) token unk_index) default =
  known_or_unk self token.
Proof.
  unfold Dict.get_default at 1. now rewrite fallback_decodes.
Qed.

Lemma fallback_row_decodable maxlen tokens :
  Dict.contains (idx2vocab self) 0 = true ->
  first_undecodable (idx2vocab self)
    (pad_post maxlen
       (map (fun token => Dict.get_default (vocab2idx self) token unk_index)
            tokens)) = None.
Proof.
  intros Hpad. apply find_all_false. intros idx Hin.
  apply In_pad_post in Hin as [Hin| ->].
  - apply in_map_iff in Hin as (token & <- & _).
    unfold Dict.contains. now rewrite fallback_decodes.
  - now rewrite Hpad.
Qed.

Lemma fallback_batch_decodable maxlen samples :
  Dict.contains (idx2vocab self) 0 = true ->
  first_undecodable (idx2vocab self)
    (List.concat
       (map (fun seq =>
               pad_post maxlen
                 (map (fun token =>
                         Dict.get_default (vocab2idx self) token unk_index)
                      (wrapped self seq))) samples)) = None.
Proof.
  intros Hpad. apply find_all_false. intros idx Hin.
  apply in_concat in Hin as (row & Hrow & Hin).
  apply in_map_iff in Hrow as (seq & <- & _).
  pose proof (fallback_row_decodable maxlen (wrapped self seq) Hpad) as Hnone.
  unfold first_undecodable in Hnone.
  exact (find_none _ _ Hnone idx Hin).
Qed.

Lemma decode_cut maxlen seq default :
  len seq + 1 <= maxlen ->
  firstn (Z.to_nat (len seq + 1 - 1))
    (tl (map (fun idx => Dict.get_default (idx2vocab self) idx default)
             (pad_post maxlen
                (map (fun token =>
                        Dict.get_default (vocab2idx self) token unk_index)
                     (wrapped self seq))))) =
  map (known_or_unk self) seq.
Proof.
  intros Hlen. unfold wrapped. cbn [app map]. rewrite map_app.
  destruct (@pad_post_prefix maxlen
              (Dict.get_default (vocab2idx self) (token_bos self) unk_index)
              (map (fun token =>
                      Dict.get_default (vocab2idx self) token unk_index) seq)
              (map (fun token =>
                      Dict.get_default (vocab2idx self) token unk_index)
                   [token_eos self])) as (tail & ->).
  { unfold len in *. rewrite length_map. lia. }
  cbn [map tl]. rewrite map_app, map_map.
  replace (Z.to_nat (len seq + 1 - 1)) with
    (List.length
       (map (fun token =>
               Dict.get_default (idx2vocab self)
                 (Dict.get_default (vocab2idx self) token unk_index) default)
            seq) + 0)%nat
    by (rewrite length_map; unfold len; lia).
  rewrite firstn_app_2. cbn [firstn]. rewrite app_nil_r.
  apply map_ext. intros token. apply fallback_decodes_default.
Qed.

Lemma round_trip_batch samples n max_position :
  allow_unk self = true ->
  Dict.contains (idx2vocab self) 0 = true ->
  0 <= n ->
  (forall seq, In seq samples -> len seq + 1 <= n) ->
  exists token_ids,
    transform samples (Some n) max_position false self =
      (Ok (TokenIds token_ids), self) /\
    rows token_ids =
      map (fun seq =>
             pad_post n
               (map (fun token =>
                       Dict.get_default (vocab2idx self) token unk_index)
                    (wrapped self seq))) samples /\
    inverse_transform (rows token_ids)
      (Some (map (fun seq => len seq + 1) samples)) self =
      (Ok (map (map (known_or_unk self)) samples), self).
Proof.
  intros Hallow Hpad Hn Hfit.
  eexists. split.
  { rewrite transform_unfold. cbn [resolve_seq_length ret].
    rewrite (numerize_fallback_batch self samples Hallow unk_known).
    rewrite pad_sequences_ok by exact Hn. reflexivity. }
  cbn [rows]. rewrite map_map. split; [reflexivity|].
  rewrite inverse_transform_unfold. f_equal.
  pose proof (@inverse_loop_some self
    (map (fun seq =>
            pad_post n
              (map (fun token =>
                      Dict.get_default (vocab2idx self) token unk_index)
                   (wrapped self seq))) samples)
    [] (map (fun seq => len seq + 1) samples)) as Hloop.
  rewrite (fallback_batch_decodable n samples Hpad) in Hloop.
  cbn [app] in Hloop. change (len (@nil Z)) with 0 in Hloop.
  rewrite (Hloop ltac:(rewrite !length_map; lia) "").
  f_equal. rewrite combine_map_same, map_map.
  apply map_ext_in. intros seq Hseq. cbn [fst snd].
  rewrite slice_from_one by (unfold len; lia).
  apply decode_cut. auto.
Qed.

Lemma round_trip_no_lengths T max_position :
  allow_unk self = true ->
  exists token_ids,
    transform [T] (Some (len T + 2)) max_position false self =
      (Ok (TokenIds token_ids), self) /\
    inverse_transform (rows token_ids) None self =
      (Ok [known_or_unk self (token_bos self) :: map (known_or_unk self) T],
       self).
Proof.
  intros Hallow.
  assert (Hn : 0 <= len T + 2) by (unfold len; lia).
  eexists. split.
  { rewrite transform_unfold. cbn [resolve_seq_length ret].
    rewrite (numerize_fallback_batch self [T] Hallow unk_known).
    rewrite pad_sequences_ok by exact Hn. reflexivity. }
  cbn [rows map]. rewrite <- (len_wrapped self T).
  replace (len (wrapped self T)) with
    (len (map (fun token => Dict.get_default (vocab2idx self) token unk_index)
              (wrapped self T)))
    by (unfold len; now rewrite length_map).
  rewrite pad_post_exact, inverse_transform_unfold. f_equal.
  pose proof (inverse_loop_none self
    [map (fun token => Dict.get_default (vocab2idx self) token unk_index)
         (wrapped self T)] 0) as Hloop.
  assert (Hnone : first_undecodable (idx2vocab self)
    (List.concat
       [map (fun token => Dict.get_default (vocab2idx self) token unk_index)
            (wrapped self T)]) = None).
  { apply find_all_false. intros idx Hin. cbn [List.concat] in Hin.
    rewrite app_nil_r in Hin. apply in_map_iff in Hin as (token & <- & _).
    unfold Dict.contains. now rewrite fallback_decodes. }
  rewrite Hnone in Hloop. rewrite (Hloop ""). cbn [map]. do 2 f_equal.
  rewrite map_map. unfold wrapped.
  change ([token_bos self] ++ T ++ [token_eos self])
    with ((token_bos self :: T) ++ [token_eos self]).
  rewrite map_app. cbn [map]. rewrite removelast_last.
  f_equal; [apply fallback_decodes_default|].
  apply map_ext. intros token. apply fallback_decodes_default.
Qed.
End RoundTrip.

(** The entries of an array that [transform] returns with the fallback on
    are [int32] values when the indices of the vocabulary are. *)
Lemma fallback_entries_fit samples n max_position self token_ids self' :
  indices_fit self ->
  allow_unk self = true ->
  Dict.contains (vocab2idx self) (token_unk self) = true ->
  transform samples (Some n) max_position false self =
    (Ok (TokenIds token_ids), self') ->
  Forall (Forall int32) (rows token_ids).
Proof.
  intros Hfit Hallow Hunk Ht. unfold Dict.contains in Hunk.
  destruct (Dict.get (vocab2idx self) (token_unk self)) as [unk_index|] eqn:E;
    [|discriminate].
  rewrite transform_unfold in Ht. cbn [resolve_seq_length ret] in Ht.
  rewrite (numerize_fallback_batch self samples Hallow E) in Ht.
  destruct (pad_sequences _ n) as [ids|e] eqn:Hpad; [|discriminate].
  apply pad_sequences_inv in Hpad as [_ ->].
  injection Ht as <- _. cbn [rows]. rewrite map_map.
  apply Forall_forall. intros row Hrow.
  apply in_map_iff in Hrow as (seq & <- & _).
  apply pad_post_fits.
  apply (@lookup_row_fits self unk_index (wrapped self seq) Hfit).
  exact (@get_fits self (token_unk self) unk_index Hfit E).
Qed.

(** X16.  Round trip of a batch: with [int32] indices, the fallback on,
    UNK in the vocabulary, [idx2vocab] inverting [vocab2idx] and holding
    index 0, a batch encoded to a width that leaves room for BOS and every
    token, then decoded with [lengths[i] = len(samples[i]) + 1], comes back
    with every token the vocabulary has unchanged and every other token
    replaced by UNK; padding and EOS are cut.  The entries of the array are
    [int32] values. *)
Theorem batch_round_trip self samples n max_position :
  indices_fit self ->
  allow_unk self = true ->
  Dict.contains (vocab2idx self) (token_unk self) = true ->
  (forall token idx,
      Dict.get (vocab2idx self) token = Some idx ->
      Dict.get (idx2vocab self) idx = Some token) ->
  Dict.contains (idx2vocab self) 0 = true ->
  0 <= n ->
  (forall seq, In seq samples -> len seq + 1 <= n) ->
  exists token_ids,
    transform samples (Some n) max_position false self =
      (Ok (TokenIds token_ids), self) /\
    Forall (Forall int32) (rows token_ids) /\
    inverse_transform (rows token_ids)
      (Some (map (fun seq => len seq + 1) samples)) self =
      (Ok (map (map (known_or_unk self)) samples), self).
Proof.
  intros Hfit Hallow Hunk Hinv Hpad Hn Hlen.
  pose proof Hunk as Hunk'. unfold Dict.contains in Hunk'.
  destruct (Dict.get (vocab2idx self) (token_unk self)) as [unk_index|] eqn:E;
    [|discriminate].
  destruct (@round_trip_batch self unk_index E Hinv samples n max_position
              Hallow Hpad Hn Hlen) as (token_ids & Ht & _ & Hi).
  exists token_ids. repeat split; auto.
  exact (@fallback_entries_fit samples n max_position self token_ids self
           Hfit Hallow Hunk Ht).
Qed.

(** X17.  Round trip without [lengths]: under the same conditions, with BOS
    in the vocabulary, a sequence encoded to its exact wrapped width and
    decoded without [lengths] comes back with BOS in front: only EOS is
    dropped.  The entries of the array are [int32] values. *)
Theorem round_trip_without_lengths self T max_position :
  indices_fit self ->
  allow_unk self = true ->
  Dict.contains (vocab2idx self) (token_unk self) = true ->
  Dict.contains (vocab2idx self) (token_bos self) = true ->
  (forall token idx,
      Dict.get (vocab2idx self) token = Some idx ->
      Dict.get (idx2vocab self) idx = Some token) ->
  exists token_ids,
    transform [T] (Some (len T + 2)) max_position false self =
      (Ok (TokenIds token_ids), self) /\
    Forall (Forall int32) (rows token_ids) /\
    inverse_transform (rows token_ids) None self =
      (Ok [token_bos self :: map (known_or_unk self) T], self).
Proof.
  intros Hfit Hallow Hunk Hbos Hinv.
  pose proof Hunk as Hunk'. unfold Dict.contains in Hunk'.
  destruct (Dict.get (vocab2idx self) (token_unk self)) as [unk_index|] eqn:E;
    [|discriminate].
  destruct (@round_trip_no_lengths self unk_index E Hinv T max_position Hallow)
    as (token_ids & Ht & Hi).
  exists token_ids. split; auto. split.
  - exact (@fallback_entries_fit [T] (len T + 2) max_position self token_ids
             self Hfit Hallow Hunk Ht).
  - unfold known_or_unk at 1 in Hi. now rewrite Hbos in Hi.
Qed.

(** ** From the corpus to the arrays and back *)

(** What a first build in mode "text" establishes for [transform] and
    [inverse_transform]. *)
Lemma text_build_ready self0 threshold from_labels corpus :
  NoDup [token_pad self0; token_unk self0; token_bos self0; token_eos self0] ->
  vocab2idx self0 = Dict.empty ->
  exists self',
    build_vocab_generator (Some corpus)
      (__init__ self0 "text" threshold from_labels) = (Ok tt, self') /\
    allow_unk self' = true /\
    Dict.contains (vocab2idx self') (token_unk self') = true /\
    NoDup (Dict.keys (vocab2idx self')) /\
    Dict.values (vocab2idx self') =
      index_range (List.length (vocab2idx self')) /\
    (forall token idx,
        Dict.get (vocab2idx self') token = Some idx ->
        Dict.get (idx2vocab self') idx = Some token) /\
    Dict.contains (idx2vocab self') 0 = true.
Proof.
  intros Hnd Hempty.
  set (self := __init__ self0 "text" threshold from_labels).
  assert (Hinit := text_initial_vocab self0 threshold from_labels Hnd).
  fold self in Hinit.
  assert (Hseed : NoDup (Dict.keys (_initial_vocab_dic self)) /\
                  Dict.values (_initial_vocab_dic self) =
                  index_range (List.length (_initial_vocab_dic self))).
  { apply init_seed_counts. auto. }
  destruct (@built_vocab_wellformed self corpus (proj1 Hseed) (proj2 Hseed))
    as [Hk Hv].
  destruct (NoDup4_inv Hnd) as (Hpu & _).
  assert (Hinv : forall token idx,
    Dict.get (built_vocab self corpus) token = Some idx ->
    Dict.get (Dict.of_pairs (map swap (built_vocab self corpus))) idx =
    Some token).
  { intros token idx Hget.
    assert (Hvnd : NoDup (Dict.values (built_vocab self corpus)))
      by (rewrite Hv; apply index_range_nodup).
    exact (proj1 (@inverse_lookup _ _ _ _ (built_vocab self corpus)
                    token idx Hk Hvnd) Hget). }
  exists (set_vocab self (built_vocab self corpus)
            (Dict.of_pairs (map swap (built_vocab self corpus)))).
  split; [now apply build_vocab_generator_fresh|].
  cbn [vocab2idx idx2vocab allow_unk token_unk set_vocab].
  repeat split; auto.
  - apply contains_true. rewrite built_vocab_keys, Hinit. apply in_or_app.
    left. simpl. auto.
  - unfold Dict.contains.
    rewrite (Hinv (token_pad self0) 0); auto.
    unfold built_vocab. rewrite get_app, Hinit. simpl.
    now rewrite String.eqb_refl.
Qed.

(** X18.  Valid indices: after a first build in mode "text", [transform]
    with a non-negative [seq_length] returns for every batch, and every
    entry of the array is an index of the vocabulary. *)
Theorem transform_after_text_build
    self0 threshold from_labels corpus samples n max_position segment :
  NoDup [token_pad self0; token_unk self0; token_bos self0; token_eos self0] ->
  vocab2idx self0 = Dict.empty ->
  0 <= n ->
  exists self' out,
    build_vocab_generator (Some corpus)
      (__init__ self0 "text" threshold from_labels) = (Ok tt, self') /\
    transform samples (Some n) max_position segment self' = (Ok out, self') /\
    Forall (Forall (fun idx => 0 <= idx < len (vocab2idx self')))
           (rows (token_ids_of out)).
Proof.
  intros Hnd Hempty Hn.
  destruct (@text_build_ready self0 threshold from_labels corpus Hnd Hempty)
    as (self' & Hbuild & Hallow & Hunk & Hk & Hv & _ & _).
  unfold Dict.contains in Hunk.
  destruct (Dict.get (vocab2idx self') (token_unk self')) as [unk_index|] eqn:E;
    [|discriminate].
  destruct (@transform_numerized samples (Some n) max_position segment self' n
              self' _ eq_refl Hn
              (numerize_fallback_batch self' samples Hallow E))
    as (out & Hout & Hids).
  exists self', out. repeat split; auto.
  rewrite Hids. cbn [rows]. rewrite map_map.
  assert (Hrange : forall idx, In idx (Dict.values (vocab2idx self')) ->
                               0 <= idx < len (vocab2idx self')).
  { intros idx Hin. rewrite Hv in Hin. now apply index_range_In in Hin. }
  assert (Hvalue : forall token idx,
             Dict.get (vocab2idx self') token = Some idx ->
             0 <= idx < len (vocab2idx self')).
  { intros token idx Hget. apply Hrange. apply get_In in Hget.
    apply (in_map snd) in Hget. exact Hget. }
  apply Forall_forall. intros row Hrow.
  apply in_map_iff in Hrow as (seq & <- & _).
  apply Forall_forall. intros idx Hin.
  apply In_pad_post in Hin as [Hin| ->].
  - apply in_map_iff in Hin as (token & <- & _). unfold Dict.get_default.
    destruct (Dict.get (vocab2idx self') token) as [idx|] eqn:Et; eauto.
  - pose proof (Hvalue _ _ E). lia.
Qed.

(** X19.  From the corpus and back: after a first build in mode "text",
    whatever the corpus, a batch encoded to a width that leaves room for BOS
    and every token and decoded with [lengths[i] = len(samples[i]) + 1]
    comes back with the tokens of the vocabulary unchanged and every other
    token replaced by UNK. *)
Theorem text_build_round_trip
    self0 threshold from_labels corpus samples n max_position :
  NoDup [token_pad self0; token_unk self0; token_bos self0; token_eos self0] ->
  vocab2idx self0 = Dict.empty ->
  0 <= n ->
  (forall seq, In seq samples -> len seq + 1 <= n) ->
  exists self' token_ids,
    build_vocab_generator (Some corpus)
      (__init__ self0 "text" threshold from_labels) = (Ok tt, self') /\
    transform samples (Some n) max_position false self' =
      (Ok (TokenIds token_ids), self') /\
    inverse_transform (rows token_ids)
      (Some (map (fun seq => len seq + 1) samples)) self' =
      (Ok (map (map (known_or_unk self')) samples), self').
Proof.
  intros Hnd Hempty Hn Hfit.
  destruct (@text_build_ready self0 threshold from_labels corpus Hnd Hempty)
    as (self' & Hbuild & Hallow & Hunk & _ & _ & Hinv & Hpad).
  unfold Dict.contains in Hunk.
  destruct (Dict.get (vocab2idx self') (token_unk self')) as [unk_index|] eqn:E;
    [|discriminate].
  destruct (@round_trip_batch self' unk_index E Hinv samples n max_position
              Hallow Hpad Hn Hfit) as (token_ids & Ht & _ & Hi).
  exists self', token_ids. auto.
Qed.

(** ** Instances of the further properties *)

Lemma vocabulary_membership_witness :
  exists self',
    build_vocab_generator (Some example_corpus) text_fresh = (Ok tt, self') /\
    (Dict.contains (vocab2idx self') "a" = true <->
     In "a" (Dict.keys (_initial_vocab_dic text_fresh)) \/
     (In "a" (counted_stream (build_vocab_from_labels text_fresh) example_corpus) /\
      min_count text_fresh <=
        occurrences "a"
          (counted_stream (build_vocab_from_labels text_fresh) example_corpus))).
Proof.
  apply (@vocabulary_membership text_fresh example_corpus "a"). reflexivity.
Defined.

Lemma seed_is_kept_witness :
  exists self' learned,
    build_vocab_generator (Some reserved_corpus) text_fresh = (Ok tt, self') /\
    vocab2idx self' = _initial_vocab_dic text_fresh ++ learned /\
    (forall token, In token (Dict.keys learned) ->
                   ~ In token (Dict.keys (_initial_vocab_dic text_fresh))) /\
    (forall token idx,
        Dict.get (_initial_vocab_dic text_fresh) token = Some idx ->
        Dict.get (vocab2idx self') token = Some idx).
Proof.
  apply (@seed_is_kept text_fresh reserved_corpus). reflexivity.
Defined.

Lemma nothing_learned_witness :
  exists self',
    build_vocab_generator (Some example_corpus)
      (__init__ abc_default "text" 5 false) = (Ok tt, self') /\
    vocab2idx self' =
      _initial_vocab_dic (__init__ abc_default "text" 5 false).
Proof.
  apply (@nothing_learned (__init__ abc_default "text" 5 false) example_corpus).
  - reflexivity.
  - intros token Hin. right. vm_compute in Hin.
    repeat destruct Hin as [<-|Hin]; try reflexivity. destruct Hin.
Defined.

Lemma build_twice_witness :
  build_vocab_generator (Some example_corpus) empty_example =
  (Ok tt, empty_example).
Proof.
  apply (@build_twice (Some example_corpus)
           (__init__ abc_default "none" 5 false) empty_example).
  reflexivity.
Defined.

Lemma counted_side_only_witness :
  build_vocab_generator (Some example_corpus)
    (__init__ abc_default "labeling" 1 true) =
  build_vocab_generator (Some relabelled_corpus)
    (__init__ abc_default "labeling" 1 true).
Proof.
  apply (@counted_side_only (__init__ abc_default "labeling" 1 true)
           example_corpus relabelled_corpus).
  reflexivity.
Defined.

Lemma indices_count_from_zero_witness :
  exists self',
    build_vocab_generator (Some example_corpus)
      (__init__ abc_default "labeling" 1 true) = (Ok tt, self') /\
    NoDup (Dict.keys (vocab2idx self')) /\
    Dict.values (vocab2idx self') =
      index_range (List.length (vocab2idx self')) /\
    idx2vocab self' = map swap (vocab2idx self') /\
    ("labeling" = "labeling" ->
     Dict.get (vocab2idx self') (token_pad abc_default) = Some 0).
Proof.
  apply (@indices_count_from_zero abc_default "labeling" 1 true example_corpus).
  - discriminate.
  - reflexivity.
Defined.

Lemma padding_shape_witness :
  exists out,
    transform [["a"]; ["a"; "b"; "q"]] (Some 3) (Some 2) true text_example =
      (Ok out, text_example) /\
    shape (token_ids_of out) = (len [["a"]; ["a"; "b"; "q"]], 3) /\
    len (rows (token_ids_of out)) = len [["a"]; ["a"; "b"; "q"]] /\
    Forall (fun row => len row = 3 /\ Forall int32 row)
           (rows (token_ids_of out)).
Proof.
  apply (@padding_shape [["a"]; ["a"; "b"; "q"]] 3 (Some 2) true text_example).
  - lia.
  - apply text_example_fits.
  - reflexivity.
  - reflexivity.
Defined.

Lemma inferred_width_witness :
  exists out self',
    transform [["a"; "b"]; ["a"]] None (Some 1) false strict_example =
      (Ok out, self') /\
    shape (token_ids_of out) =
      (len [["a"; "b"]; ["a"]], inferred_length 2 (Some 1)) /\
    len (rows (token_ids_of out)) = len [["a"; "b"]; ["a"]] /\
    Forall (fun row => len row = inferred_length 2 (Some 1) /\
                       Forall int32 row)
           (rows (token_ids_of out)).
Proof.
  apply (@inferred_width [["a"; "b"]; ["a"]] (Some 1) false strict_example 2).
  - simpl. auto.
  - intros seq [<-|[<-|[]]]; vm_compute; discriminate.
  - intros m E. injection E as <-. lia.
  - apply text_example_fits.
  - right. split; reflexivity.
Defined.

Lemma fallback_needs_unk_witness :
  transform [["O"]] (Some 3) None false labeling_example =
  (Raise (KeyError_str (token_unk labeling_example)), labeling_example).
Proof.
  apply (@fallback_needs_unk [["O"]] (Some 3) None false labeling_example 3
           labeling_example).
  - reflexivity.
  - discriminate.
  - reflexivity.
  - reflexivity.
Defined.

Lemma inferred_length_truncates_witness :
  exists out self',
    transform [["a"; "b"]; ["a"]] None None false text_example =
      (Ok out, self') /\
    Forall (Forall int32) (rows (token_ids_of out)) /\
    Forall2
      (fun seq row =>
         len seq = 2 ->
         row = map (fun token =>
                      Dict.get_default (vocab2idx text_example) token 1)
                   (token_bos text_example :: removelast seq))
      [["a"; "b"]; ["a"]] (rows (token_ids_of out)).
Proof.
  apply (@inferred_length_truncates [["a"; "b"]; ["a"]] false text_example 2 1).
  - simpl. auto.
  - intros seq [<-|[<-|[]]]; vm_compute; discriminate.
  - lia.
  - apply text_example_fits.
  - reflexivity.
  - reflexivity.
Defined.

Lemma inverse_missing_index_witness :
  inverse_transform [[2; 5]; [9; 3]] None text_example =
  (Raise (KeyError_int 9), text_example).
Proof.
  apply (@inverse_missing_index [[2; 5]; [9; 3]] None text_example 9).
  - exact I.
  - reflexivity.
Defined.

Lemma inverse_without_lengths_witness :
  inverse_transform [[2; 5; 4; 3]; []] None text_example =
  (Ok (map (fun row =>
              removelast
                (map (fun idx =>
                        Dict.get_default (idx2vocab text_example) idx "")
                     row)) [[2; 5; 4; 3]; []]), text_example).
Proof.
  apply (@inverse_without_lengths [[2; 5; 4; 3]; []] text_example "").
  reflexivity.
Defined.

Lemma inverse_with_lengths_witness :
  inverse_transform [[2; 5; 4; 3; 0]] (Some [3]) text_example =
  (Ok (map (fun item =>
              firstn (Z.to_nat (snd item - 1))
                (tl (map (fun idx =>
                            Dict.get_default (idx2vocab text_example) idx "")
                         (fst item))))
           (combine [[2; 5; 4; 3; 0]] [3])), text_example).
Proof.
  apply (@inverse_with_lengths [[2; 5; 4; 3; 0]] [3] text_example "").
  - reflexivity.
  - vm_compute. discriminate.
  - repeat constructor. lia.
Defined.

Lemma inverse_lengths_too_short_witness :
  exists msg,
    inverse_transform [[2; 3]; [2; 4; 3]] (Some [2]) text_example =
    (Raise (IndexError msg), text_example).
Proof.
  apply (@inverse_lengths_too_short [[2; 3]; [2; 4; 3]] [2] text_example).
  - reflexivity.
  - reflexivity.
Defined.

Lemma text_example_pad_index : Dict.contains (idx2vocab text_example) 0 = true.
Proof. reflexivity. Qed.

Lemma batch_round_trip_witness :
  exists token_ids,
    transform [["a"; "q"]; ["b"]] (Some 5) None false text_example =
      (Ok (TokenIds token_ids), text_example) /\
    Forall (Forall int32) (rows token_ids) /\
    inverse_transform (rows token_ids)
      (Some (map (fun seq => len seq + 1) [["a"; "q"]; ["b"]])) text_example =
      (Ok (map (map (known_or_unk text_example)) [["a"; "q"]; ["b"]]),
       text_example).
Proof.
  apply (@batch_round_trip text_example [["a"; "q"]; ["b"]] 5 None).
  - apply text_example_fits.
  - reflexivity.
  - reflexivity.
  - apply text_example_inverse.
  - reflexivity.
  - lia.
  - intros seq [<-|[<-|[]]]; vm_compute; discriminate.
Defined.

Lemma round_trip_without_lengths_witness :
  exists token_ids,
    transform [["a"; "b"]] (Some (len ["a"; "b"] + 2)) None false text_example =
      (Ok (TokenIds token_ids), text_example) /\
    Forall (Forall int32) (rows token_ids) /\
    inverse_transform (rows token_ids) None text_example =
      (Ok [token_bos text_example :: map (known_or_unk text_example) ["a"; "b"]],
       text_example).
Proof.
  apply (@round_trip_without_lengths text_example ["a"; "b"] None).
  - apply text_example_fits.
  - reflexivity.
  - reflexivity.
  - reflexivity.
  - apply text_example_inverse.
Defined.

Lemma abc_default_distinct :
  NoDup [token_pad abc_default; token_unk abc_default;
         token_bos abc_default; token_eos abc_default].
Proof. distinct_tokens. Qed.

Lemma transform_after_text_build_witness :
  exists self' out,
    build_vocab_generator (Some example_corpus)
      (__init__ abc_default "text" 2 false) = (Ok tt, self') /\
    transform [["a"; "q"]; ["b"]] (Some 3) None false self' = (Ok out, self') /\
    Forall (Forall (fun idx => 0 <= idx < len (vocab2idx self')))
           (rows (token_ids_of out)).
Proof.
  apply (@transform_after_text_build abc_default 2 false example_corpus
           [["a"; "q"]; ["b"]] 3 None false).
  - apply abc_default_distinct.
  - reflexivity.
  - lia.
Defined.

Lemma text_build_round_trip_witness :
  exists self' token_ids,
    build_vocab_generator (Some example_corpus)
      (__init__ abc_default "text" 2 false) = (Ok tt, self') /\
    transform [["a"; "q"]; ["b"]] (Some 4) None false self' =
      (Ok (TokenIds token_ids), self') /\
    inverse_transform (rows token_ids)
      (Some (map (fun seq => len seq + 1) [["a"; "q"]; ["b"]])) self' =
      (Ok (map (map (known_or_unk self')) [["a"; "q"]; ["b"]]), self').
Proof.
  apply (@text_build_round_trip abc_default 2 false example_corpus
           [["a"; "q"]; ["b"]] 4 None).
  - apply abc_default_distinct.
  - reflexivity.
  - lia.
  - intros seq [<-|[<-|[]]]; vm_compute; discriminate.
Defined.
